(** * A sharded LRU cache (main.go): shallow embedding and verification

    The Go program keeps, per shard, a map from keys to heap-allocated
    nodes and an intrusive doubly-linked recency list delimited by two
    sentinel nodes.  Nodes are modelled as cells of an explicit heap,
    pointers as optional locations ([None] is Go's [nil]), and every
    operation as a computation in a state-and-failure monad over the heap:
    a [nil] dereference or an out-of-range slice index (a Go panic) is
    [None].

    Each operation of the program holds the lock of the shard it works on
    for its whole body, so in this sequential model the [mu] field and the
    Lock/Unlock calls have no effect and are left out.  Go's [int] is taken
    to be 64 bits wide. *)

From Stdlib Require Import ZArith Lia.
From stdpp Require Import base option list gmap strings fin_maps fin_sets.

Open Scope Z_scope.

(** ** Machine integers *)

(** [uint32] arithmetic wraps modulo 2^32. *)
Definition wrap_uint32 (z : Z) : Z := z mod 2 ^ 32.

(** [int] arithmetic wraps into the signed 64-bit range. *)
Definition wrap_int (z : Z) : Z := (z + 2 ^ 63) mod 2 ^ 64 - 2 ^ 63.

Definition max_int : Z := 2 ^ 63 - 1.

(** ** Data model *)

(** Values are Go's [interface{}]: the payloads the program stores, and
    [nil]. *)
Inductive any : Type :=
  | AnyNil
  | AnyString (s : string)
  | AnyInt (n : Z)
  | AnyStringMap (m : list (string * string)).

Abbreviation loc := positive.

(** A [*Node]: [None] is the nil pointer. *)
Abbreviation ptr := (option loc).

Module Node.
Record t : Type := mk { key : string; value : any; prev : ptr; next : ptr }.

(** [Node{}], the zero value. *)
Definition zero : t := mk "" AnyNil None None.

Definition with_value (v : any) (n : t) : t := mk (key n) v (prev n) (next n).
Definition with_prev (p : ptr) (n : t) : t := mk (key n) (value n) p (next n).
Definition with_next (p : ptr) (n : t) : t := mk (key n) (value n) (prev n) p.
End Node.

Module Shard.
Record t : Type := mk {
  capacity : Z;
  size : Z;
  cache : gmap string ptr;
  head : ptr;
  tail : ptr
}.

Definition with_size (z : Z) (s : t) : t :=
  mk (capacity s) z (cache s) (head s) (tail s).
Definition with_cache (m : gmap string ptr) (s : t) : t :=
  mk (capacity s) (size s) m (head s) (tail s).
End Shard.

(** The slice [shards] holds one pointer per shard object and is never
    written after construction; the shard objects are kept in place in the
    list, and a mutation of a shard's fields is an update of its slot. *)
Record LRUCache : Type := mkLRUCache {
  shards : list Shard.t;
  shardMask : Z
}.

Definition with_shard (i : nat) (s : Shard.t) (c : LRUCache) : LRUCache :=
  mkLRUCache (<[i := s]> (shards c)) (shardMask c).

(** ** The heap monad *)

Abbreviation heap := (gmap loc Node.t).

Definition M (A : Type) : Type := heap → option (A * heap).

Global Instance M_ret : MRet M := λ A a h, Some (a, h).
Global Instance M_bind : MBind M :=
  λ A B f m h, match m h with Some (a, h') => f a h' | None => None end.

(** A panic. *)
Definition panic {A} : M A := λ _, None.

Definition lift {A} (o : option A) : M A :=
  match o with Some a => mret a | None => panic end.

(** Reading through a pointer: nil (or dangling) panics. *)
Definition load (p : ptr) : M Node.t :=
  λ h, match p with
       | Some x => match h !! x with Some n => Some (n, h) | None => None end
       | None => None
       end.

(** Writing a field through a pointer. *)
Definition store (p : ptr) (f : Node.t → Node.t) : M unit :=
  λ h, match p with
       | Some x =>
           match h !! x with Some _ => Some (tt, alter f x h) | None => None end
       | None => None
       end.

(** [&Node{...}]: a cell at an address not in use. *)
Definition new (n : Node.t) : M ptr :=
  λ h, let x := fresh (dom h) in Some (Some x, <[x := n]> h).

(** ** The program *)

Definition nextPowerOf2 (n : Z) : Z :=
  if n =? 0 then 1 else n.

Definition newShard (capacity : Z) : M Shard.t :=
  hd ← new Node.zero;
  tl ← new Node.zero;
  let shard := Shard.mk capacity 0 ∅ hd tl in
  store (Shard.head shard) (Node.with_next (Shard.tail shard));;
  store (Shard.tail shard) (Node.with_prev (Shard.head shard));;
  mret shard.

(** FNV-1a, 32 bits (hash/fnv's [New32a], [Write], [Sum32]). *)
Definition fnv_offset32 : Z := 2166136261.
Definition fnv_prime32 : Z := 16777619.

Definition bytes_of (key : string) : list Z :=
  (λ a, Z.of_N (Ascii.N_of_ascii a)) <$> String.list_ascii_of_string key.

Definition fnv32a_write (h : Z) (bs : list Z) : Z :=
  fold_left (λ h b, wrap_uint32 (Z.lxor h b * fnv_prime32)) bs h.

Definition hash (c : LRUCache) (key : string) : Z :=
  fnv32a_write fnv_offset32 (bytes_of key).

(** The index expression of [getShard]. *)
Definition shardIndex (c : LRUCache) (key : string) : nat :=
  Z.to_nat (Z.land (hash c key) (shardMask c)).

(** Indexing the slice out of range panics. *)
Definition getShard (c : LRUCache) (key : string) : option Shard.t :=
  shards c !! shardIndex c key.

(** The loop of [NewLRUCache] that fills the slice, slot 0 first. *)
Fixpoint makeShards (n : nat) (shardCapacity : Z) : M (list Shard.t) :=
  match n with
  | O => mret []
  | S n' =>
      s ← newShard shardCapacity;
      ss ← makeShards n' shardCapacity;
      mret (s :: ss)
  end.

(** The shard count computed at the start of [NewLRUCache]; [numCPU] is
    the value of [runtime.NumCPU()], an [int] converted to [uint32]. *)
Definition numShardsOf (numCPU : Z) : Z :=
  let numShards := nextPowerOf2 (wrap_uint32 (wrap_int (numCPU * 4))) in
  let numShards := if numShards <? 16 then 16 else numShards in
  let numShards := if numShards <? 1024 then 1024 else numShards in
  numShards.

(** The per-shard capacity computed next: [int] division truncates towards
    zero. *)
Definition shardCapacityOf (numShards capacity : Z) : Z :=
  let shardCapacity := wrap_int (capacity ÷ numShards) in
  if shardCapacity <? 1 then 1 else shardCapacity.

Definition NewLRUCache (numCPU capacity : Z) : M LRUCache :=
  let numShards := numShardsOf numCPU in
  let shardCapacity := shardCapacityOf numShards capacity in
  ss ← makeShards (Z.to_nat numShards) shardCapacity;
  mret (mkLRUCache ss (wrap_uint32 (numShards - 1))).

Definition removeNode (node : ptr) : M unit :=
  n ← load node;
  store (Node.prev n) (Node.with_next (Node.next n));;
  n ← load node;
  store (Node.next n) (Node.with_prev (Node.prev n)).

Definition addToFront (s : Shard.t) (node : ptr) : M unit :=
  store node (Node.with_prev (Shard.head s));;
  hd ← load (Shard.head s);
  store node (Node.with_next (Node.next hd));;
  hd ← load (Shard.head s);
  store (Node.next hd) (Node.with_prev node);;
  store (Shard.head s) (Node.with_next node).

Definition moveToFront (s : Shard.t) (node : ptr) : M unit :=
  removeNode node;;
  addToFront s node.

(** [Get] writes link fields of nodes only, never a field of a shard. *)
Definition Get (c : LRUCache) (key : string) : M (any * bool) :=
  shard ← lift (getShard c key);
  match Shard.cache shard !! key with
  | Some node =>
      moveToFront shard node;;
      n ← load node;
      mret (Node.value n, true)
  | None => mret (AnyNil, false)
  end.

(** [Put] writes the [cache] and [size] fields of the selected shard; the
    cache it returns is the receiver with that shard's slot updated.  The
    final [if] is the source's overflow test, whose branch only returns. *)
Definition Put (c : LRUCache) (key : string) (value : any) : M LRUCache :=
  shard ← lift (getShard c key);
  match Shard.cache shard !! key with
  | Some node =>
      store node (Node.with_value value);;
      moveToFront shard node;;
      mret c
  | None =>
      newNode ← new (Node.mk key value None None);
      let shard := Shard.with_cache (<[key := newNode]> (Shard.cache shard)) shard in
      addToFront shard newNode;;
      let shard := Shard.with_size (wrap_int (Shard.size shard + 1)) shard in
      let c := with_shard (shardIndex c key) shard c in
      if Shard.size shard >? Shard.capacity shard then mret c else mret c
  end.

(** The body of the loop of [Clear], for one shard. *)
Definition clearShard (shard : Shard.t) : M Shard.t :=
  let shard := Shard.with_cache ∅ shard in
  store (Shard.head shard) (Node.with_next (Shard.tail shard));;
  store (Shard.tail shard) (Node.with_prev (Shard.head shard));;
  mret (Shard.with_size 0 shard).

Fixpoint clearShards (ss : list Shard.t) : M (list Shard.t) :=
  match ss with
  | [] => mret []
  | shard :: rest =>
      shard' ← clearShard shard;
      rest' ← clearShards rest;
      mret (shard' :: rest')
  end.

Definition Clear (c : LRUCache) : M LRUCache :=
  ss ← clearShards (shards c);
  mret (mkLRUCache ss (shardMask c)).

Definition evictLRU (s : Shard.t) : M Shard.t :=
  tl ← load (Shard.tail s);
  let lru := Node.prev tl in
  if decide (lru ≠ Shard.head s) then
    removeNode lru;;
    n ← load lru;
    let s := Shard.with_cache (delete (Node.key n) (Shard.cache s)) s in
    mret (Shard.with_size (wrap_int (Shard.size s - 1)) s)
  else mret s.

Definition Size (c : LRUCache) : Z :=
  fold_left (λ total shard, wrap_int (total + Shard.size shard)) (shards c) 0.

(** ** Sequences of calls *)

Inductive call : Type :=
  | CallGet (key : string)
  | CallPut (key : string) (value : any)
  | CallClear.

Definition step (c : LRUCache) (o : call) : M LRUCache :=
  match o with
  | CallGet key => Get c key;; mret c
  | CallPut key value => Put c key value
  | CallClear => Clear c
  end.

Fixpoint run (c : LRUCache) (os : list call) : M LRUCache :=
  match os with
  | [] => mret c
  | o :: rest => c' ← step c o; run c' rest
  end.

(** The keys a sequence of calls puts. *)
Definition put_keys (os : list call) : list string :=
  omap (λ o, match o with CallPut key _ => Some key | _ => None end) os.

(** ** Reading a shard's recency list *)

(** Follow [next] pointers from [p] until [stop]. *)
Fixpoint walk (h : heap) (fuel : nat) (p stop : ptr) : option (list loc) :=
  match fuel with
  | O => None
  | S fuel' =>
      if decide (p = stop) then Some []
      else match p with
           | Some x =>
               match h !! x with
               | Some n => (x ::.) <$> walk h fuel' (Node.next n) stop
               | None => None
               end
           | None => None
           end
  end.

(** The non-sentinel nodes of a shard, front to back. *)
Definition realNodes (h : heap) (s : Shard.t) : option (list loc) :=
  match Shard.head s with
  | Some x =>
      match h !! x with
      | Some hd => walk h (S (size h)) (Node.next hd) (Shard.tail s)
      | None => None
      end
  | None => None
  end.

Definition keyOf (h : heap) (x : loc) : option string := Node.key <$> h !! x.
Definition valueOf (h : heap) (x : loc) : option any := Node.value <$> h !! x.

(** The keys of a shard in recency order, most recent first. *)
Definition recencyKeys (h : heap) (s : Shard.t) : option (list string) :=
  l ← realNodes h s; mapM (keyOf h) l.


(** ** Well-formed states *)

Definition nextOf (h : heap) (x : loc) : option ptr := Node.next <$> h !! x.
Definition prevOf (h : heap) (x : loc) : option ptr := Node.prev <$> h !! x.

(** Consecutive cells of [chain] point at each other. *)
Fixpoint linked (h : heap) (chain : list loc) : Prop :=
  match chain with
  | [] => True
  | x :: rest =>
      match rest with
      | [] => True
      | y :: _ =>
          nextOf h x = Some (Some y) ∧ prevOf h y = Some (Some x) ∧ linked h rest
      end
  end.

(** The cells a shard owns: its two sentinels and, between them, its real
    nodes from most to least recently used. *)
Record layout : Type := Layout {
  lay_head : loc;
  lay_tail : loc;
  lay_nodes : list loc
}.

Definition footprint (g : layout) : list loc :=
  lay_head g :: lay_nodes g ++ [lay_tail g].

Record shard_wf (h : heap) (s : Shard.t) (g : layout) : Prop := {
  wf_head : Shard.head s = Some (lay_head g);
  wf_tail : Shard.tail s = Some (lay_tail g);
  wf_nodup : NoDup (footprint g);
  wf_linked : linked h (footprint g);
  wf_cache : ∀ k p,
    Shard.cache s !! k = Some p ↔
    ∃ x, p = Some x ∧ x ∈ lay_nodes g ∧ keyOf h x = Some k;
  wf_size : Shard.size s = wrap_int (Z.of_nat (length (lay_nodes g)))
}.

(** No cell belongs to two shards. *)
Definition disjoint_layouts (gs : list layout) : Prop :=
  ∀ i j gi gj x,
    gs !! i = Some gi → gs !! j = Some gj → i ≠ j →
    x ∈ footprint gi → x ∈ footprint gj → False.

Record cache_wf (h : heap) (c : LRUCache) (gs : list layout) : Prop := {
  cwf_shards : Forall2 (shard_wf h) (shards c) gs;
  cwf_disjoint : disjoint_layouts gs;
  cwf_mask : 0 ≤ shardMask c < Z.of_nat (length (shards c))
}.

(** A shard as [Clear] leaves it, and the cells it then owns. *)
Definition cleared (s : Shard.t) : Shard.t :=
  Shard.with_size 0 (Shard.with_cache ∅ s).

Definition emptied (g : layout) : layout :=
  Layout (lay_head g) (lay_tail g) [].

Definition cache_inv (h : heap) (c : LRUCache) : Prop := ∃ gs, cache_wf h c gs.

(** The three counts of a shard: the [size] field, the entries of the
    lookup table, the real nodes of the recency list. *)
Definition counts_agree (h : heap) (s : Shard.t) : Prop :=
  (λ l, Z.of_nat (length l)) <$> realNodes h s = Some (Shard.size s) ∧
  Z.of_nat (size (Shard.cache s)) = Shard.size s.

Global Instance counts_agree_dec h s : Decision (counts_agree h s).
Proof. unfold counts_agree. apply _. Defined.

(** The sentinels of every shard, in slice order. *)
Definition sentinels (c : LRUCache) : list (ptr * ptr) :=
  (λ s, (Shard.head s, Shard.tail s)) <$> shards c.

(** [h'] is [h] except on the cells of [X]. *)
Definition same_outside (X : list loc) (h h' : heap) : Prop :=
  ∀ y, y ∉ X → h' !! y = h !! y.

(** Only link fields differ between [h] and [h']. *)
Definition same_data (h h' : heap) : Prop :=
  dom h' = dom h ∧ ∀ y, keyOf h' y = keyOf h y ∧ valueOf h' y = valueOf h y.

(** The two sentinels of a shard point at each other: the recency list
    holds no real node. *)
Definition sentinels_linked (h : heap) (s : Shard.t) : Prop :=
  ∃ hd tl, Shard.head s = Some hd ∧ Shard.tail s = Some tl ∧
           nextOf h hd = Some (Some tl) ∧ prevOf h tl = Some (Some hd).

(** The lookup-table entry of a key, in the shard the key is routed to. *)
Definition lookupTable (c : LRUCache) (key : string) : option ptr :=
  s ← getShard c key; Shard.cache s !! key.

(** ** Running programs from the empty heap *)

Definition inspect {A} (f : heap → A) : M A := λ h, Some (f h, h).

Definition result {A} (m : M A) : option A := fst <$> m ∅.

(** The state after constructing a cache and issuing [os]. *)
Definition state_after (numCPU capacity : Z) (os : list call) : LRUCache * heap :=
  default (mkLRUCache [] 0, ∅) ((c ← NewLRUCache numCPU capacity; run c os) ∅).

(** States used to instantiate the theorems below. *)
Definition demo_calls : list call :=
  [CallPut "user:1" (AnyString "Tony");
   CallPut "user:2" (AnyString "Ayo");
   CallPut "session:abc098" (AnyStringMap [("token", "xyz123")]%string);
   CallGet "user:1"].

Definition demo_state : LRUCache * heap := state_after 8 1000000 demo_calls.

(** The shard "user:1" is routed to, in [demo_state]. *)
Definition demo_shard : Shard.t :=
  default (Shard.mk 0 0 ∅ None None) (getShard demo_state.1 "user:1").

(** ** The specification's shard count

    The smallest power of two that is at least [n], and the count the
    specification derives from it. *)
Definition spec_nextPowerOfTwo (n : Z) : Z := 2 ^ Z.log2_up n.

Definition spec_shardCount (parallelism : Z) : Z :=
  Z.max 16 (spec_nextPowerOfTwo (4 * parallelism)).

(** ** Stats *)

(** The values of the map [Stats] returns: an [int] or a slice of [int]. *)
Inductive stat : Type :=
  | StatInt (z : Z)
  | StatInts (zs : list Z).

(** The loop of [Stats]: the shard at index [i] writes slot [i] of
    [shardSizes] and is added to [totalSize]. *)
Fixpoint statsLoop (i : nat) (ss : list Shard.t) (acc : Z * list Z) : Z * list Z :=
  match ss with
  | [] => acc
  | shard :: rest =>
      let shardSizes := <[i := Shard.size shard]> acc.2 in
      let totalSize := wrap_int (acc.1 + Shard.size shard) in
      statsLoop (S i) rest (totalSize, shardSizes)
  end.

Definition Stats (c : LRUCache) : gmap string stat :=
  let acc := statsLoop 0 (shards c) (0, replicate (length (shards c)) 0) in
  <["total_size" := StatInt acc.1]>
    (<["num_shards" := StatInt (Z.of_nat (length (shards c)))]>
       (<["shard_sizes" := StatInts acc.2]> ∅)).

(** ** The entries of a shard *)

Definition entryOf (h : heap) (x : loc) : option (string * any) :=
  (λ n, (Node.key n, Node.value n)) <$> h !! x.

(** The key-value pairs of a shard, most recently used first. *)
Definition contents (h : heap) (s : Shard.t) : option (list (string * any)) :=
  l ← realNodes h s; mapM (entryOf h) l.


(** The number of real nodes over all shards. *)
Definition entryCount (h : heap) (c : LRUCache) : nat :=
  sum_list_with (λ s, from_option length 0%nat (realNodes h s)) (shards c).

(** ** A reference recency list

    An association list kept in most-recently-used order, with no bound
    on its length: what one shard of the program is compared with. *)
Fixpoint assoc (k : string) (l : list (string * any)) : option any :=
  match l with
  | [] => None
  | e :: l' => if decide (e.1 = k) then Some e.2 else assoc k l'
  end.

Definition drop_key (k : string) (l : list (string * any)) : list (string * any) :=
  filter (λ e, e.1 ≠ k) l.

Definition ref_get (k : string) (l : list (string * any)) : list (string * any) :=
  match assoc k l with
  | Some v => (k, v) :: drop_key k l
  | None => l
  end.

Definition ref_put (k : string) (v : any) (l : list (string * any))
    : list (string * any) :=
  (k, v) :: drop_key k l.

(** The effect of a call on the reference list of shard [j]. *)
Definition ref_step (c : LRUCache) (j : nat) (l : list (string * any)) (o : call)
    : list (string * any) :=
  match o with
  | CallGet k => if decide (shardIndex c k = j) then ref_get k l else l
  | CallPut k v => if decide (shardIndex c k = j) then ref_put k v l else l
  | CallClear => []
  end.

Definition ref_run (c : LRUCache) (j : nat) (os : list call) : list (string * any) :=
  fold_left (ref_step c j) os [].

(** The value a key was last put with, since the last clear. *)
Definition last_put_step (key : string) (r : option any) (o : call) : option any :=
  match o with
  | CallGet _ => r
  | CallPut k v => if decide (k = key) then Some v else r
  | CallClear => None
  end.

Definition last_put (key : string) (os : list call) : option any :=
  fold_left (last_put_step key) os None.

(** The entries of the cells of [l], in order, are [a]. *)
Definition entries (h : heap) (l : list loc) (a : list (string * any)) : Prop :=
  Forall2 (λ x e, entryOf h x = Some e) l a.

(** Shard [j] holds the list [f j], for every [j]. *)
Definition holds (h : heap) (c : LRUCache) (f : nat → list (string * any)) : Prop :=
  ∃ gs, cache_wf h c gs ∧ ∀ j g, gs !! j = Some g → entries h (lay_nodes g) (f j).

(** * Proofs *)

(** ** Machine integers *)

Lemma wrap_int_small z : - 2 ^ 63 ≤ z ≤ max_int → wrap_int z = z.
Proof.
  unfold wrap_int, max_int. intros Hz.
  rewrite Z.mod_small; lia.
Qed.

Lemma wrap_int_succ z : wrap_int (wrap_int z + 1) = wrap_int (z + 1).
Proof.
  unfold wrap_int.
  replace ((z + 2 ^ 63) mod 2 ^ 64 - 2 ^ 63 + 1 + 2 ^ 63)
    with ((z + 2 ^ 63) mod 2 ^ 64 + 1) by lia.
  replace (z + 1 + 2 ^ 63) with ((z + 2 ^ 63) + 1) by lia.
  f_equal. symmetry. rewrite Z.add_mod by lia.
  rewrite (Z.add_mod ((z + 2 ^ 63) mod 2 ^ 64) 1) by lia.
  rewrite Z.mod_mod by lia. reflexivity.
Qed.

Lemma wrap_int_pred z : wrap_int (wrap_int (z + 1) - 1) = wrap_int z.
Proof.
  unfold wrap_int.
  replace ((z + 1 + 2 ^ 63) mod 2 ^ 64 - 2 ^ 63 - 1 + 2 ^ 63)
    with ((z + 1 + 2 ^ 63) mod 2 ^ 64 - 1) by lia.
  f_equal.
  rewrite Zminus_mod_idemp_l.
  f_equal. lia.
Qed.

Lemma land_mask_bound a m : 0 ≤ m → 0 ≤ Z.land a m ≤ m.
Proof.
  intros Hm.
  assert (Hnn : 0 ≤ Z.land a m) by (apply Z.land_nonneg; by right).
  split; [done|].
  assert (Hidem : Z.land (Z.land a m) m = Z.land a m)
    by (by rewrite <- Z.land_assoc, Z.land_diag).
  rewrite <- Hidem.
  rewrite <- (Z2N.id (Z.land a m)) by done.
  rewrite <- (Z2N.id m) by done.
  rewrite <- N2Z.inj_land.
  apply N2Z.inj_le, N.land_le_r.
Qed.

(** ** The heap monad *)

Lemma bind_Some {A B} (m : M A) (f : A → M B) h a h1 :
  m h = Some (a, h1) → (m ≫= f) h = f a h1.
Proof. unfold mbind, M_bind. by intros ->. Qed.

Lemma load_Some h x n : h !! x = Some n → load (Some x) h = Some (n, h).
Proof. unfold load. by intros ->. Qed.

Lemma store_Some h x f n :
  h !! x = Some n → store (Some x) f h = Some (tt, alter f x h).
Proof. unfold store. by intros ->. Qed.

(** ** Field reads after a field write *)

Lemma nextOf_lookup h x n : h !! x = Some n → nextOf h x = Some (Node.next n).
Proof. unfold nextOf. by intros ->. Qed.

Lemma prevOf_lookup h x n : h !! x = Some n → prevOf h x = Some (Node.prev n).
Proof. unfold prevOf. by intros ->. Qed.

Lemma nextOf_Some h x p : nextOf h x = Some p → ∃ n, h !! x = Some n ∧ Node.next n = p.
Proof.
  unfold nextOf. destruct (h !! x) as [n|]; [|done].
  intros [= <-]. eauto.
Qed.

Lemma prevOf_Some h x p : prevOf h x = Some p → ∃ n, h !! x = Some n ∧ Node.prev n = p.
Proof.
  unfold prevOf. destruct (h !! x) as [n|]; [|done].
  intros [= <-]. eauto.
Qed.

Lemma nextOf_with_next_eq h x p :
  is_Some (h !! x) → nextOf (alter (Node.with_next p) x h) x = Some p.
Proof. intros [n Hn]. unfold nextOf. by rewrite lookup_alter_eq, Hn. Qed.

Lemma nextOf_with_next_ne h x y p :
  x ≠ y → nextOf (alter (Node.with_next p) x h) y = nextOf h y.
Proof. intros. unfold nextOf. by rewrite lookup_alter_ne. Qed.

Lemma nextOf_with_prev h x y p :
  nextOf (alter (Node.with_prev p) x h) y = nextOf h y.
Proof.
  unfold nextOf. rewrite lookup_alter. case_decide; [subst|done].
  by destruct (h !! y).
Qed.

Lemma nextOf_with_value h x y v :
  nextOf (alter (Node.with_value v) x h) y = nextOf h y.
Proof.
  unfold nextOf. rewrite lookup_alter. case_decide; [subst|done].
  by destruct (h !! y).
Qed.

Lemma prevOf_with_prev_eq h x p :
  is_Some (h !! x) → prevOf (alter (Node.with_prev p) x h) x = Some p.
Proof. intros [n Hn]. unfold prevOf. by rewrite lookup_alter_eq, Hn. Qed.

Lemma prevOf_with_prev_ne h x y p :
  x ≠ y → prevOf (alter (Node.with_prev p) x h) y = prevOf h y.
Proof. intros. unfold prevOf. by rewrite lookup_alter_ne. Qed.

Lemma prevOf_with_next h x y p :
  prevOf (alter (Node.with_next p) x h) y = prevOf h y.
Proof.
  unfold prevOf. rewrite lookup_alter. case_decide; [subst|done].
  by destruct (h !! y).
Qed.

Lemma prevOf_with_value h x y v :
  prevOf (alter (Node.with_value v) x h) y = prevOf h y.
Proof.
  unfold prevOf. rewrite lookup_alter. case_decide; [subst|done].
  by destruct (h !! y).
Qed.

Lemma keyOf_alter h x y f :
  (∀ n, Node.key (f n) = Node.key n) → keyOf (alter f x h) y = keyOf h y.
Proof.
  intros Hf. unfold keyOf. rewrite lookup_alter. case_decide; [subst|done].
  destruct (h !! y); simpl; by rewrite ?Hf.
Qed.

Lemma valueOf_alter h x y f :
  (∀ n, Node.value (f n) = Node.value n) → valueOf (alter f x h) y = valueOf h y.
Proof.
  intros Hf. unfold valueOf. rewrite lookup_alter. case_decide; [subst|done].
  destruct (h !! y); simpl; by rewrite ?Hf.
Qed.

Lemma is_Some_alter (h : heap) f x y : is_Some (alter f x h !! y) ↔ is_Some (h !! y).
Proof.
  rewrite lookup_alter. case_decide; [subst|done].
  by rewrite fmap_is_Some.
Qed.

(** ** Linked chains *)

Lemma linked_cons2 h x y r :
  linked h (x :: y :: r) ↔
  nextOf h x = Some (Some y) ∧ prevOf h y = Some (Some x) ∧ linked h (y :: r).
Proof. reflexivity. Qed.

Lemma linked_app h l1 x l2 :
  linked h (l1 ++ x :: l2) ↔ linked h (l1 ++ [x]) ∧ linked h (x :: l2).
Proof.
  induction l1 as [|a l1 IH].
  - simpl. tauto.
  - destruct l1 as [|b l1].
    + simpl. destruct l2; tauto.
    + change ((a :: b :: l1) ++ x :: l2) with (a :: b :: (l1 ++ x :: l2)).
      change ((a :: b :: l1) ++ [x]) with (a :: b :: (l1 ++ [x])).
      rewrite !linked_cons2.
      change (b :: l1 ++ x :: l2) with ((b :: l1) ++ x :: l2).
      change (b :: l1 ++ [x]) with ((b :: l1) ++ [x]).
      tauto.
Qed.

(** A chain stays linked when the heap keeps the [next] field of all its
    cells but the last and the [prev] field of all but the first. *)
Lemma linked_ext h h' chain :
  NoDup chain →
  linked h chain →
  (∀ x, x ∈ chain → Some x ≠ last chain → nextOf h' x = nextOf h x) →
  (∀ x, x ∈ chain → Some x ≠ head chain → prevOf h' x = prevOf h x) →
  linked h' chain.
Proof.
  induction chain as [|x chain IH]; [done|].
  destruct chain as [|y r]; [done|].
  intros Hnd (Hn & Hp & Hl) Hnext Hprev.
  apply NoDup_cons in Hnd as [Hx Hnd].
  assert (Hy : y ∉ r) by (by apply NoDup_cons in Hnd as [? _]).
  rewrite linked_cons2. split_and!.
  - rewrite Hnext; [done|set_solver|].
    intros Hlast. apply Hx.
    change (last (x :: y :: r)) with (last (y :: r)) in Hlast.
    symmetry in Hlast. apply last_Some in Hlast as [l' Hl'].
    rewrite Hl'. set_solver.
  - rewrite Hprev; [done|set_solver|].
    simpl. intros [= ->]. set_solver.
  - apply IH; [done|done|..].
    + intros z Hin Hlast. apply Hnext; [by apply elem_of_cons; right|done].
    + intros z Hin Hhead. apply Hprev; [by apply elem_of_cons; right|].
      simpl. intros [= ->]. done.
Qed.

Lemma linked_same h h' chain :
  linked h chain → (∀ x, x ∈ chain → h' !! x = h !! x) → linked h' chain.
Proof.
  induction chain as [|x chain IH]; [done|].
  destruct chain as [|y r]; [done|].
  intros (Hn & Hp & Hl) Hsame. rewrite linked_cons2. split_and!.
  - unfold nextOf. rewrite Hsame; [done|set_solver].
  - unfold prevOf. rewrite Hsame; [done|set_solver].
  - apply IH; [done|]. intros z Hin. apply Hsame. by apply elem_of_cons; right.
Qed.

(** Every cell of a linked chain of at least two cells is allocated. *)
Lemma linked_allocated h chain x :
  (2 ≤ length chain)%nat → linked h chain → x ∈ chain → is_Some (h !! x).
Proof.
  induction chain as [|a chain IH]; [by inversion 3|].
  destruct chain as [|b r]; [simpl; lia|].
  intros _ (Hn & Hp & Hl) Hx.
  apply nextOf_Some in Hn as (na & Hna & _).
  apply prevOf_Some in Hp as (nb & Hnb & _).
  apply elem_of_cons in Hx as [->|Hx]; [eauto|].
  destruct r as [|c r].
  - apply list_elem_of_singleton in Hx as ->. eauto.
  - apply IH; [simpl; lia|done|done].
Qed.

(** ** Unlinking and relinking a node *)

Lemma removeNode_exec h x nx a b :
  h !! x = Some nx → Node.prev nx = Some a → Node.next nx = Some b →
  is_Some (h !! a) → is_Some (h !! b) → a ≠ x →
  removeNode (Some x) h =
    Some (tt, alter (Node.with_prev (Some a)) b (alter (Node.with_next (Some b)) a h)).
Proof.
  intros Hx Hprev Hnext [na Ha] [nb Hb] Hax. unfold removeNode.
  erewrite bind_Some by (by apply load_Some).
  rewrite Hprev, Hnext.
  erewrite bind_Some by (by eapply store_Some).
  erewrite bind_Some by (apply load_Some; by rewrite lookup_alter_ne).
  rewrite Hprev, Hnext.
  destruct (is_Some_alter h (Node.with_next (Some b)) a b) as [_ [nb' Hb']]; [eauto|].
  by erewrite store_Some.
Qed.

Lemma addToFront_exec h s x hd nhd b :
  Shard.head s = Some hd → h !! hd = Some nhd → Node.next nhd = Some b →
  is_Some (h !! x) → is_Some (h !! b) → x ≠ hd →
  addToFront s (Some x) h =
    Some (tt, alter (Node.with_next (Some x)) hd
                (alter (Node.with_prev (Some x)) b
                   (alter (Node.with_next (Some b)) x
                      (alter (Node.with_prev (Some hd)) x h)))).
Proof.
  intros Hs Hhd Hnext [nx Hx] Hb Hxhd. unfold addToFront. rewrite Hs.
  erewrite bind_Some by (by eapply store_Some).
  erewrite bind_Some by (apply load_Some; by rewrite lookup_alter_ne).
  rewrite Hnext.
  set (h1 := alter (Node.with_prev (Some hd)) x h).
  assert (is_Some (h1 !! x)) as [nx1 Hx1] by (apply is_Some_alter; eauto).
  erewrite bind_Some by (by eapply store_Some).
  set (h2 := alter (Node.with_next (Some b)) x h1).
  erewrite bind_Some by (apply load_Some; unfold h2, h1; by rewrite !lookup_alter_ne).
  rewrite Hnext.
  assert (is_Some (h2 !! b)) as [nb2 Hb2]
    by (unfold h2, h1; by rewrite !is_Some_alter).
  erewrite bind_Some by (by eapply store_Some).
  set (h3 := alter (Node.with_prev (Some x)) b h2).
  assert (is_Some (h3 !! hd)) as [nhd3 Hhd3]
    by (unfold h3, h2, h1; rewrite !is_Some_alter; eauto).
  by erewrite store_Some.
Qed.

Lemma same_data_refl h : same_data h h.
Proof. by split. Qed.

Lemma same_data_trans h1 h2 h3 : same_data h1 h2 → same_data h2 h3 → same_data h1 h3.
Proof.
  intros [Hd1 Hk1] [Hd2 Hk2]. split; [congruence|].
  intros y. destruct (Hk1 y), (Hk2 y). split; congruence.
Qed.

Lemma same_data_alter_next h x p : same_data h (alter (Node.with_next p) x h).
Proof.
  split; [apply dom_alter_L|]. intros y.
  by rewrite keyOf_alter, valueOf_alter.
Qed.

Lemma same_data_alter_prev h x p : same_data h (alter (Node.with_prev p) x h).
Proof.
  split; [apply dom_alter_L|]. intros y.
  by rewrite keyOf_alter, valueOf_alter.
Qed.

Lemma same_data_allocated h h' y : same_data h h' → is_Some (h' !! y) ↔ is_Some (h !! y).
Proof. intros [Hd _]. by rewrite <- !elem_of_dom, Hd. Qed.

Lemma same_outside_refl X h : same_outside X h h.
Proof. by intros y _. Qed.

Lemma same_outside_trans X h1 h2 h3 :
  same_outside X h1 h2 → same_outside X h2 h3 → same_outside X h1 h3.
Proof. intros H1 H2 y Hy. by rewrite H2, H1. Qed.

Lemma same_outside_mono X Y h h' :
  (∀ y, y ∈ X → y ∈ Y) → same_outside X h h' → same_outside Y h h'.
Proof. intros Hsub H y Hy. apply H. intros Hin. by apply Hy, Hsub. Qed.

Lemma same_outside_alter X h f x : x ∈ X → same_outside X h (alter f x h).
Proof. intros Hx y Hy. apply lookup_alter_ne. by intros ->. Qed.

Ltac nodup_split :=
  repeat match goal with
    | H : NoDup (_ ++ _) |- _ => apply NoDup_app in H as (? & ? & ?)
    | H : NoDup (_ :: _) |- _ => apply NoDup_cons in H as (? & ?)
    end.

Lemma removeNode_linked h P a x b S :
  NoDup (P ++ a :: x :: b :: S) →
  linked h (P ++ a :: x :: b :: S) →
  ∃ h', removeNode (Some x) h = Some (tt, h') ∧
        linked h' (P ++ a :: b :: S) ∧
        same_outside [a; b] h h' ∧ same_data h h'.
Proof.
  intros Hnd Hl.
  apply linked_app in Hl as [HlP Hl].
  destruct Hl as (Hna & Hpx & Hnx & Hpb & HlS).
  apply prevOf_Some in Hpx as (nx & Hx & Hprev).
  apply nextOf_Some in Hnx as (nx' & Hx' & Hnext).
  assert (nx' = nx) as -> by congruence.
  assert (is_Some (h !! a)) as Ha
    by (apply nextOf_Some in Hna as (? & ? & _); eauto).
  assert (is_Some (h !! b)) as Hb
    by (apply prevOf_Some in Hpb as (? & ? & _); eauto).
  assert (HndP : NoDup (P ++ [a])).
  { apply NoDup_app in Hnd as (? & HP & Hnd). apply NoDup_cons in Hnd as [? ?].
    apply NoDup_app. split_and!; [done| |apply NoDup_singleton].
    intros z Hz Hza. apply (HP z Hz). set_solver. }
  assert (HndS : NoDup (b :: S)) by (nodup_split; by apply NoDup_cons).
  assert (Hax : a ≠ x) by (nodup_split; set_solver).
  assert (HaS : a ∉ b :: S) by (nodup_split; set_solver).
  assert (HbP : b ∉ P ++ [a]).
  { nodup_split. intros [Hin| ->%list_elem_of_singleton]%elem_of_app; set_solver. }
  eexists. split; [by eapply removeNode_exec|]. split_and!.
  - apply linked_app. split.
    + eapply linked_ext; [done|exact HlP|..].
      * intros z Hz Hlast. rewrite last_snoc in Hlast.
        rewrite nextOf_with_prev, nextOf_with_next_ne; [done|congruence].
      * intros z Hz _.
        rewrite prevOf_with_prev_ne, prevOf_with_next; [done|].
        by intros ->.
    + rewrite linked_cons2. split_and!.
      * by rewrite nextOf_with_prev, nextOf_with_next_eq.
      * rewrite prevOf_with_prev_eq; [done|]. by apply is_Some_alter.
      * eapply linked_ext; [done|exact HlS|..].
        -- intros z Hz _.
           rewrite nextOf_with_prev, nextOf_with_next_ne; [done|].
           by intros ->.
        -- intros z Hz Hhead.
           rewrite prevOf_with_prev_ne, prevOf_with_next; [done|].
           simpl in Hhead. congruence.
  - eapply same_outside_trans; apply same_outside_alter; set_solver.
  - eapply same_data_trans; [apply same_data_alter_next|apply same_data_alter_prev].
Qed.

Lemma addToFront_linked h s hd x b S :
  Shard.head s = Some hd →
  NoDup (hd :: b :: S) →
  linked h (hd :: b :: S) →
  x ∉ hd :: b :: S →
  is_Some (h !! x) →
  ∃ h', addToFront s (Some x) h = Some (tt, h') ∧
        linked h' (hd :: x :: b :: S) ∧
        same_outside [x; hd; b] h h' ∧ same_data h h'.
Proof.
  intros Hs Hnd Hl Hx Hax.
  destruct Hl as (Hnhd & Hpb & HlS).
  apply nextOf_Some in Hnhd as (nhd & Hhd & Hnext).
  assert (is_Some (h !! b)) as Hb
    by (apply prevOf_Some in Hpb as (? & ? & _); eauto).
  assert (HndS : NoDup (b :: S)) by (by apply NoDup_cons in Hnd as [_ ?]).
  assert (Hxhd : x ≠ hd) by set_solver.
  assert (Hxb : x ≠ b) by set_solver.
  assert (HhdS : hd ∉ b :: S) by (by apply NoDup_cons in Hnd as [? _]).
  eexists. split; [by eapply addToFront_exec|]. split_and!.
  - rewrite !linked_cons2. split_and!.
    + rewrite nextOf_with_next_eq; [done|]. rewrite !is_Some_alter. eauto.
    + rewrite prevOf_with_next, prevOf_with_prev_ne by set_solver.
      rewrite prevOf_with_next, prevOf_with_prev_eq; done.
    + rewrite nextOf_with_next_ne, nextOf_with_prev by done.
      rewrite nextOf_with_next_eq; [done|]. by rewrite is_Some_alter.
    + rewrite prevOf_with_next, prevOf_with_prev_eq; [done|].
      by rewrite !is_Some_alter.
    + eapply linked_ext; [done|exact HlS|..].
      * intros z Hz _.
        rewrite nextOf_with_next_ne, nextOf_with_prev by (intros ->; done).
        rewrite nextOf_with_next_ne, nextOf_with_prev; [done|].
        intros ->. apply Hx. by apply elem_of_cons; right.
      * intros z Hz Hhead. simpl in Hhead.
        rewrite prevOf_with_next, prevOf_with_prev_ne by congruence.
        rewrite prevOf_with_next, prevOf_with_prev_ne; [done|].
        intros ->. apply Hx. by apply elem_of_cons; right.
  - do 3 (eapply same_outside_trans; [|apply same_outside_alter; set_solver]).
    apply same_outside_alter; set_solver.
  - eapply same_data_trans; [|apply same_data_alter_next].
    eapply same_data_trans; [|apply same_data_alter_prev].
    eapply same_data_trans; [apply same_data_alter_prev|apply same_data_alter_next].
Qed.

(** The same two lemmas on a sentinel-delimited list. *)

Lemma cons_snoc {A} (x : A) (l : list A) : ∃ P a, x :: l = P ++ [a].
Proof.
  induction l as [|y l _] using rev_ind.
  - by exists [], x.
  - by exists (x :: l), y.
Qed.

Lemma snoc_cons {A} (l : list A) (x : A) : ∃ b S, l ++ [x] = b :: S.
Proof. destruct l as [|b l]; simpl; eauto. Qed.

Lemma removeNode_footprint h hd tl l1 x l2 :
  NoDup (hd :: (l1 ++ x :: l2) ++ [tl]) →
  linked h (hd :: (l1 ++ x :: l2) ++ [tl]) →
  ∃ h', removeNode (Some x) h = Some (tt, h') ∧
        linked h' (hd :: (l1 ++ l2) ++ [tl]) ∧
        same_outside (hd :: (l1 ++ x :: l2) ++ [tl]) h h' ∧ same_data h h'.
Proof.
  destruct (cons_snoc hd l1) as (P & a & HP).
  destruct (snoc_cons l2 tl) as (b & S & HS).
  assert (Hold : hd :: (l1 ++ x :: l2) ++ [tl] = P ++ a :: x :: b :: S).
  { rewrite <- app_assoc. simpl. rewrite HS.
    change (hd :: l1 ++ x :: b :: S) with ((hd :: l1) ++ x :: b :: S).
    rewrite HP, <- app_assoc. reflexivity. }
  assert (Hnew : hd :: (l1 ++ l2) ++ [tl] = P ++ a :: b :: S).
  { rewrite <- app_assoc, HS.
    change (hd :: l1 ++ b :: S) with ((hd :: l1) ++ b :: S).
    rewrite HP, <- app_assoc. reflexivity. }
  rewrite Hold, Hnew. intros Hnd Hl.
  destruct (removeNode_linked h P a x b S Hnd Hl) as (h' & Hrun & Hl' & Hout & Hdata).
  exists h'. split_and!; [done|done| |done].
  eapply same_outside_mono; [|exact Hout].
  intros y Hy. set_solver.
Qed.

Lemma addToFront_footprint h s hd tl l x :
  Shard.head s = Some hd →
  NoDup (hd :: l ++ [tl]) →
  linked h (hd :: l ++ [tl]) →
  x ∉ hd :: l ++ [tl] →
  is_Some (h !! x) →
  ∃ h', addToFront s (Some x) h = Some (tt, h') ∧
        linked h' (hd :: (x :: l) ++ [tl]) ∧
        same_outside (x :: hd :: l ++ [tl]) h h' ∧ same_data h h'.
Proof.
  destruct (snoc_cons l tl) as (b & S & HS).
  change ((x :: l) ++ [tl]) with (x :: (l ++ [tl])). rewrite HS.
  intros Hs Hnd Hl Hx Hax.
  destruct (addToFront_linked h s hd x b S Hs Hnd Hl Hx Hax)
    as (h' & Hrun & Hl' & Hout & Hdata).
  exists h'. split_and!; [done|done| |done].
  eapply same_outside_mono; [|exact Hout].
  intros y Hy. set_solver.
Qed.

(** ** Well-formed shards *)

Lemma footprint_length g : (2 ≤ length (footprint g))%nat.
Proof. unfold footprint. simpl. rewrite length_app. simpl. lia. Qed.

Lemma footprint_nodes g x : x ∈ lay_nodes g → x ∈ footprint g.
Proof. unfold footprint. set_solver. Qed.

Lemma footprint_head g : lay_head g ∈ footprint g.
Proof. unfold footprint. set_solver. Qed.

Lemma footprint_tail g : lay_tail g ∈ footprint g.
Proof. unfold footprint. set_solver. Qed.

Lemma shard_wf_allocated h s g x :
  shard_wf h s g → x ∈ footprint g → is_Some (h !! x).
Proof.
  intros Hwf. apply linked_allocated; [apply footprint_length|apply Hwf].
Qed.

(** A shard's invariant only reads the cells of its footprint. *)
Lemma shard_wf_frame h h' s g :
  shard_wf h s g → (∀ y, y ∈ footprint g → h' !! y = h !! y) → shard_wf h' s g.
Proof.
  intros [Hhd Htl Hnd Hl Hc Hsz] Hsame.
  split; [done|done|done| | |done].
  - by eapply linked_same.
  - intros k p. rewrite Hc. split.
    + intros (x & -> & Hx & Hk). exists x. split_and!; [done|done|].
      unfold keyOf. rewrite Hsame; [done|]. by apply footprint_nodes.
    + intros (x & -> & Hx & Hk). exists x. split_and!; [done|done|].
      unfold keyOf. rewrite <- Hsame; [done|]. by apply footprint_nodes.
Qed.

(** The lookup table has one entry per real node. *)
Lemma table_size (m : gmap string ptr) (l : list loc) (f : loc → option string) :
  NoDup l →
  (∀ x, x ∈ l → is_Some (f x)) →
  (∀ k p, m !! k = Some p ↔ ∃ x, p = Some x ∧ x ∈ l ∧ f x = Some k) →
  size m = length l.
Proof.
  revert m. induction l as [|x l IH]; intros m Hnd Hf Hm.
  - apply map_size_empty_iff, map_eq. intros k. rewrite lookup_empty.
    destruct (m !! k) as [p|] eqn:Hk; [|done].
    apply Hm in Hk as (x & _ & Hx & _). by apply elem_of_nil in Hx.
  - apply NoDup_cons in Hnd as [Hx Hnd].
    destruct (Hf x) as [kx Hkx]; [by left|].
    assert (Hmx : m !! kx = Some (Some x)).
    { apply Hm. exists x. split_and!; [done|by left|done]. }
    rewrite <- (insert_delete_id m kx (Some x)) by done.
    rewrite map_size_insert_None by apply lookup_delete_eq.
    simpl. f_equal. apply IH; [done|..].
    + intros y Hy. apply Hf. by right.
    + intros k p. rewrite lookup_delete. case_decide as Hk.
      * subst k. split; [done|]. intros (y & -> & Hy & Hky).
        assert (m !! kx = Some (Some y)) as Hmy.
        { apply Hm. exists y. split_and!; [done|by right|done]. }
        congruence.
      * rewrite Hm. split.
        -- intros (y & -> & [->|Hy]%elem_of_cons & Hky); [congruence|eauto].
        -- intros (y & -> & Hy & Hky). exists y. split_and!; [done|by right|done].
Qed.

Lemma shard_wf_table_size h s g :
  shard_wf h s g → size (Shard.cache s) = length (lay_nodes g).
Proof.
  intros Hwf. apply (table_size _ _ (keyOf h)).
  - pose proof (wf_nodup _ _ _ Hwf) as Hnd. unfold footprint in Hnd.
    apply NoDup_cons in Hnd as [_ Hnd]. by apply NoDup_app in Hnd as [? _].
  - intros x Hx. unfold keyOf. apply fmap_is_Some.
    eapply shard_wf_allocated; [done|]. by apply footprint_nodes.
  - apply Hwf.
Qed.

(** Walking the chain from the head sentinel reads the real nodes back. *)
Lemma walk_linked h tl l : ∀ x0 fuel,
  NoDup (l ++ [tl]) →
  linked h (x0 :: l ++ [tl]) →
  (length l < fuel)%nat →
  ∃ n0, h !! x0 = Some n0 ∧ walk h fuel (Node.next n0) (Some tl) = Some l.
Proof.
  induction l as [|y l IH]; intros x0 fuel Hnd Hl Hfuel.
  - destruct Hl as (Hn & _). apply nextOf_Some in Hn as (n0 & Hn0 & Hnext).
    exists n0. split; [done|]. rewrite Hnext.
    destruct fuel as [|fuel]; [simpl in Hfuel; lia|].
    simpl. by rewrite decide_True.
  - change (x0 :: (y :: l) ++ [tl]) with (x0 :: y :: l ++ [tl]) in Hl.
    apply linked_cons2 in Hl as (Hn & _ & Hl).
    apply nextOf_Some in Hn as (n0 & Hn0 & Hnext).
    exists n0. split; [done|]. rewrite Hnext.
    destruct fuel as [|fuel]; [simpl in Hfuel; lia|].
    simpl in Hnd. apply NoDup_cons in Hnd as [Hy Hnd].
    destruct (IH y fuel Hnd Hl) as (ny & Hny & Hwalk); [simpl in Hfuel; lia|].
    simpl. rewrite decide_False.
    + by rewrite Hny, Hwalk.
    + intros [= ->]. apply Hy. set_solver.
Qed.

Lemma NoDup_length_dom (h : heap) (l : list loc) :
  NoDup l → (∀ x, x ∈ l → is_Some (h !! x)) → (length l ≤ size h)%nat.
Proof.
  intros Hnd Hl.
  rewrite <- (size_list_to_set (C := gset loc) l) by done.
  rewrite <- size_dom. apply subseteq_size.
  intros x Hx. apply elem_of_list_to_set in Hx. by apply elem_of_dom, Hl.
Qed.

Lemma shard_wf_nodes_bound h s g :
  shard_wf h s g → (length (lay_nodes g) + 2 ≤ size h)%nat.
Proof.
  intros Hwf.
  pose proof (NoDup_length_dom h (footprint g) (wf_nodup _ _ _ Hwf)) as Hlen.
  unfold footprint in Hlen at 2. simpl in Hlen. rewrite length_app in Hlen.
  simpl in Hlen.
  assert (S (length (lay_nodes g) + 1) ≤ size h)%nat; [|lia].
  apply Hlen. intros x Hx. by eapply shard_wf_allocated.
Qed.

Lemma shard_wf_realNodes h s g :
  shard_wf h s g → realNodes h s = Some (lay_nodes g).
Proof.
  intros Hwf. pose proof (shard_wf_nodes_bound _ _ _ Hwf) as Hlen.
  destruct Hwf as [Hhd Htl Hnd Hl _ _]. unfold footprint in *.
  apply NoDup_cons in Hnd as [_ Hnd].
  destruct (walk_linked h (lay_tail g) (lay_nodes g) (lay_head g) (S (size h)))
    as (n0 & Hn0 & Hwalk); [done|done|lia|].
  unfold realNodes. by rewrite Hhd, Hn0, Htl.
Qed.

(** The invariant also survives any heap change that keeps links and keys. *)
Lemma shard_wf_congr h h' s g :
  shard_wf h s g →
  (∀ y, nextOf h' y = nextOf h y) →
  (∀ y, prevOf h' y = prevOf h y) →
  (∀ y, keyOf h' y = keyOf h y) →
  shard_wf h' s g.
Proof.
  intros [Hhd Htl Hnd Hl Hc Hsz] Hn Hp Hk.
  split; [done|done|done| | |done].
  - eapply linked_ext; [done|exact Hl|auto..].
  - intros k p. rewrite Hc. by setoid_rewrite Hk.
Qed.

Lemma NoDup_footprint_remove (hd tl : loc) l1 x l2 :
  NoDup (hd :: (l1 ++ x :: l2) ++ [tl]) →
  (x ∉ hd :: (l1 ++ l2) ++ [tl]) ∧ NoDup (hd :: (l1 ++ l2) ++ [tl]).
Proof.
  intros Hnd. apply NoDup_cons. rewrite (perm_swap hd x).
  change (NoDup (hd :: (x :: l1 ++ l2) ++ [tl])).
  by rewrite (Permutation_middle l1 l2 x).
Qed.

(** ** The operations on one shard *)

Lemma moveToFront_wf h s g l1 x l2 :
  shard_wf h s g →
  lay_nodes g = l1 ++ x :: l2 →
  ∃ h', moveToFront s (Some x) h = Some (tt, h') ∧
        shard_wf h' s (Layout (lay_head g) (lay_tail g) (x :: l1 ++ l2)) ∧
        same_outside (footprint g) h h' ∧ same_data h h'.
Proof.
  intros Hwf Hnodes. pose proof Hwf as [Hhd Htl Hnd Hl Hc Hsz].
  unfold footprint in Hnd, Hl. rewrite Hnodes in Hnd, Hl.
  assert (Hperm : x :: l1 ++ l2 ≡ₚ l1 ++ x :: l2) by apply Permutation_middle.
  assert (Hnd' : NoDup (lay_head g :: (x :: l1 ++ l2) ++ [lay_tail g]))
    by (by rewrite Hperm).
  assert (Hx : is_Some (h !! x)).
  { eapply shard_wf_allocated; [done|]. apply footprint_nodes.
    rewrite Hnodes. set_solver. }
  destruct (removeNode_footprint _ _ _ _ _ _ Hnd Hl) as (h1 & Hrun1 & Hl1 & Hout1 & Hdata1).
  destruct (NoDup_footprint_remove _ _ _ _ _ Hnd) as [Hxnew Hnd2].
  destruct (addToFront_footprint h1 s (lay_head g) (lay_tail g) (l1 ++ l2) x)
    as (h2 & Hrun2 & Hl2 & Hout2 & Hdata2); [done|done|done|done|..].
  - by apply (same_data_allocated h h1).
  - exists h2. split_and!.
    + unfold moveToFront. by erewrite bind_Some.
    + split; [done|done|exact Hnd'|exact Hl2|simpl|simpl].
      * destruct (same_data_trans _ _ _ Hdata1 Hdata2) as [_ Hkv].
        intros k p. rewrite Hc, Hnodes.
        setoid_rewrite Hperm. split.
        -- intros (y & -> & Hy & Hk). exists y. by rewrite (proj1 (Hkv y)).
        -- intros (y & -> & Hy & Hk). exists y. by rewrite <- (proj1 (Hkv y)).
      * rewrite Hsz, Hnodes. do 2 f_equal.
        simpl. rewrite !length_app. simpl. lia.
    + apply same_outside_trans with h1.
      * unfold footprint. by rewrite Hnodes.
      * eapply same_outside_mono; [|exact Hout2].
        unfold footprint. rewrite Hnodes. set_solver.
    + by eapply same_data_trans.
Qed.

Lemma linked_last_prev h P x tl :
  linked h (P ++ [x; tl]) → prevOf h tl = Some (Some x).
Proof. intros Hl. apply linked_app in Hl as [_ Hl]. apply Hl. Qed.

Lemma evictLRU_wf h s g :
  shard_wf h s g →
  ∃ s' h', evictLRU s h = Some (s', h') ∧
    shard_wf h' s' (Layout (lay_head g) (lay_tail g) (removelast (lay_nodes g))) ∧
    same_outside (footprint g) h h' ∧ same_data h h' ∧
    Shard.capacity s' = Shard.capacity s.
Proof.
  intros Hwf. pose proof Hwf as [Hhd Htl Hnd Hl Hc Hsz].
  unfold footprint in Hnd, Hl.
  destruct (shard_wf_allocated _ _ _ (lay_tail g) Hwf) as [ntl Hntl];
    [apply footprint_tail|].
  unfold evictLRU. rewrite Htl. erewrite bind_Some by (by apply load_Some).
  destruct (lay_nodes g) as [|x l1 _] eqn:Hnodes using rev_ind.
  - (* empty list: the node before the tail is the head sentinel *)
    simpl in Hl. destruct Hl as (_ & Hp & _).
    rewrite (prevOf_lookup _ _ _ Hntl) in Hp. injection Hp as Hp.
    rewrite Hp, Hhd. rewrite decide_False by (by intros []).
    exists s, h. split_and!; [done| |apply same_outside_refl|apply same_data_refl|done].
    simpl. by rewrite <- Hnodes; destruct g.
  - assert (Hp : prevOf h (lay_tail g) = Some (Some x)).
    { apply (linked_last_prev h (lay_head g :: l1)).
      by rewrite <- app_assoc in Hl. }
    rewrite (prevOf_lookup _ _ _ Hntl) in Hp. injection Hp as Hp.
    rewrite Hp, Hhd.
    rewrite decide_True by (intros [= ->]; nodup_split; set_solver).
    destruct (removeNode_footprint _ _ _ _ _ _ Hnd Hl)
      as (h1 & Hrun1 & Hl1 & Hout1 & Hdata1).
    erewrite bind_Some by done.
    assert (Hx : is_Some (h !! x)).
    { eapply shard_wf_allocated; [done|]. apply footprint_nodes.
      rewrite Hnodes. set_solver. }
    destruct (proj2 (same_data_allocated h h1 x Hdata1) Hx) as [nx Hnx].
    erewrite bind_Some by (by apply load_Some).
    assert (Hkx : keyOf h x = Some (Node.key nx)).
    { destruct Hdata1 as [_ Hkv]. rewrite <- (proj1 (Hkv x)).
      unfold keyOf. by rewrite Hnx. }
    eexists _, h1. split_and!; [done| | |done|done].
    + rewrite removelast_last. rewrite app_nil_r in Hl1.
      split; [done|done|unfold footprint; simpl|exact Hl1|simpl|simpl].
      * destruct (NoDup_footprint_remove _ _ _ _ _ Hnd) as [_ Hnd2].
        by rewrite app_nil_r in Hnd2.
      * destruct Hdata1 as [_ Hkv].
        intros k p. rewrite lookup_delete. case_decide as Hk.
        -- subst k. split; [done|]. intros (y & -> & Hy & Hky).
           rewrite (proj1 (Hkv y)) in Hky.
           assert (Shard.cache s !! Node.key nx = Some (Some y)) as Hmy.
           { apply Hc. exists y. split_and!; [done|set_solver|done]. }
           assert (Shard.cache s !! Node.key nx = Some (Some x)) as Hmx.
           { apply Hc. exists x. split_and!; [done|set_solver|done]. }
           assert (y = x) as -> by congruence.
           nodup_split. set_solver.
        -- rewrite Hc. split.
           ++ intros (y & -> & [Hy| ->%list_elem_of_singleton]%elem_of_app & Hky);
                [|congruence].
              exists y. by rewrite (proj1 (Hkv y)).
           ++ intros (y & -> & Hy & Hky). exists y.
              rewrite (proj1 (Hkv y)) in Hky. split_and!; [done|set_solver|done].
      * rewrite Hsz, length_app. simpl.
        rewrite Nat2Z.inj_add. apply wrap_int_pred.
    + unfold footprint. by rewrite Hnodes.
Qed.

Lemma clearShard_wf h s g :
  shard_wf h s g →
  ∃ h', clearShard s h = Some (cleared s, h') ∧
    shard_wf h' (cleared s) (emptied g) ∧
    same_outside [lay_head g; lay_tail g] h h' ∧ same_data h h'.
Proof.
  intros Hwf. pose proof Hwf as [Hhd Htl Hnd Hl Hc Hsz].
  destruct (shard_wf_allocated _ _ _ (lay_head g) Hwf) as [nhd Hnhd];
    [apply footprint_head|].
  destruct (shard_wf_allocated _ _ _ (lay_tail g) Hwf) as [ntl Hntl];
    [apply footprint_tail|].
  assert (Hne : lay_head g ≠ lay_tail g).
  { unfold footprint in Hnd. nodup_split. set_solver. }
  unfold clearShard.
  change (Shard.head (Shard.with_cache ∅ s)) with (Shard.head s).
  change (Shard.tail (Shard.with_cache ∅ s)) with (Shard.tail s).
  rewrite Hhd, Htl.
  erewrite bind_Some by (by eapply store_Some).
  assert (is_Some (alter (Node.with_next (Some (lay_tail g))) (lay_head g) h
                     !! lay_tail g)) as [ntl' Hntl']
    by (apply is_Some_alter; eauto).
  erewrite bind_Some by (by eapply store_Some).
  eexists. split; [reflexivity|]. split_and!.
  - split; simpl; [done|done| | | |done].
    + apply NoDup_cons. split; [set_solver|apply NoDup_singleton].
    + split_and!; [|by rewrite prevOf_with_prev_eq|done].
      rewrite nextOf_with_prev, nextOf_with_next_eq; eauto.
    + intros k p. rewrite lookup_empty. split; [done|].
      intros (x & _ & Hx & _). by apply elem_of_nil in Hx.
  - eapply same_outside_trans; apply same_outside_alter; set_solver.
  - eapply same_data_trans; [apply same_data_alter_next|apply same_data_alter_prev].
Qed.

Lemma new_exec h n :
  new n h = Some (Some (fresh (dom h)), <[fresh (dom h) := n]> h).
Proof. reflexivity. Qed.

Lemma fresh_unallocated (h : heap) : h !! fresh (dom h) = None.
Proof. apply not_elem_of_dom, is_fresh. Qed.

Lemma newShard_wf h capacity :
  ∃ h' hd tl,
    newShard capacity h = Some (Shard.mk capacity 0 ∅ (Some hd) (Some tl), h') ∧
    shard_wf h' (Shard.mk capacity 0 ∅ (Some hd) (Some tl)) (Layout hd tl []) ∧
    h !! hd = None ∧ h !! tl = None ∧
    (∀ y, is_Some (h !! y) → h' !! y = h !! y).
Proof.
  set (hd := fresh (dom h)).
  set (h1 := <[hd := Node.zero]> h).
  set (tl := fresh (dom h1)).
  set (h2 := <[tl := Node.zero]> h1).
  assert (Hhd : h !! hd = None) by apply fresh_unallocated.
  assert (Htl1 : h1 !! tl = None) by apply fresh_unallocated.
  assert (Hne : hd ≠ tl).
  { intros Heq. unfold h1 in Htl1. rewrite <- Heq in Htl1.
    by rewrite lookup_insert_eq in Htl1. }
  assert (Htl : h !! tl = None).
  { unfold h1 in Htl1. by rewrite lookup_insert_ne in Htl1. }
  assert (Hhd2 : h2 !! hd = Some Node.zero).
  { unfold h2, h1. by rewrite lookup_insert_ne, lookup_insert_eq. }
  assert (Htl2 : h2 !! tl = Some Node.zero) by apply lookup_insert_eq.
  set (h3 := alter (Node.with_next (Some tl)) hd h2).
  assert (is_Some (h3 !! tl)) as [ntl Hntl] by (apply is_Some_alter; eauto).
  set (h4 := alter (Node.with_prev (Some hd)) tl h3).
  exists h4, hd, tl.
  split_and!; [|split| | |]; simpl; try done.
  - unfold newShard. rewrite (bind_Some _ _ _ _ _ (new_exec h Node.zero)).
    fold hd h1. rewrite (bind_Some _ _ _ _ _ (new_exec h1 Node.zero)).
    fold tl h2. simpl.
    erewrite bind_Some by (by eapply store_Some). fold h3.
    erewrite bind_Some by (by eapply store_Some). done.
  - apply NoDup_cons. split; [set_solver|apply NoDup_singleton].
  - split_and!; [| |done].
    + unfold h4, h3. rewrite nextOf_with_prev, nextOf_with_next_eq; eauto.
    + unfold h4. rewrite prevOf_with_prev_eq; eauto.
  - intros k p. rewrite lookup_empty. split; [done|].
    intros (x & _ & Hx & _). by apply elem_of_nil in Hx.
  - intros y [n Hy]. unfold h4, h3, h2, h1.
    rewrite !lookup_alter_ne, !lookup_insert_ne; congruence.
Qed.

Lemma Put_miss_wf h s g key value :
  shard_wf h s g →
  Shard.cache s !! key = None →
  ∃ x h',
    h !! x = None ∧
    new (Node.mk key value None None) h
      = Some (Some x, <[x := Node.mk key value None None]> h) ∧
    addToFront (Shard.with_cache (<[key := Some x]> (Shard.cache s)) s) (Some x)
        (<[x := Node.mk key value None None]> h)
      = Some (tt, h') ∧
    shard_wf h'
      (Shard.with_size (wrap_int (Shard.size s + 1))
         (Shard.with_cache (<[key := Some x]> (Shard.cache s)) s))
      (Layout (lay_head g) (lay_tail g) (x :: lay_nodes g)) ∧
    (∀ y, is_Some (h !! y) → y ∉ footprint g → h' !! y = h !! y) ∧
    keyOf h' x = Some key ∧ valueOf h' x = Some value.
Proof.
  intros Hwf Hmiss.
  set (x := fresh (dom h)).
  set (h0 := <[x := Node.mk key value None None]> h).
  assert (Hx : h !! x = None) by apply fresh_unallocated.
  assert (Hxfp : x ∉ footprint g).
  { intros Hin. destruct (shard_wf_allocated _ _ _ _ Hwf Hin) as [n Hn]. congruence. }
  assert (Hwf0 : shard_wf h0 s g).
  { eapply shard_wf_frame; [done|]. intros y Hy.
    unfold h0. rewrite lookup_insert_ne; [done|]. by intros <-. }
  destruct Hwf0 as [Hhd Htl Hnd Hl Hc Hsz].
  destruct (addToFront_footprint h0
              (Shard.with_cache (<[key := Some x]> (Shard.cache s)) s)
              (lay_head g) (lay_tail g) (lay_nodes g) x)
    as (h' & Hrun & Hl' & Hout & [Hdom Hkv]); [done|done|done|done|..].
  { unfold h0. rewrite lookup_insert_eq. eauto. }
  assert (Hkx : keyOf h' x = Some key).
  { rewrite (proj1 (Hkv x)). unfold keyOf, h0. by rewrite lookup_insert_eq. }
  exists x, h'. split_and!; [done|done|done| | |done|].
  - split; [done|done| |exact Hl'|simpl|simpl].
    + unfold footprint. simpl. rewrite (perm_swap x (lay_head g)).
      apply NoDup_cons. by split.
    + intros k p. rewrite lookup_insert. case_decide as Hk.
      * subst k. split.
        -- intros [= <-]. exists x. split_and!; [done|by left|done].
        -- intros (y & -> & [->|Hy]%elem_of_cons & Hky); [done|].
           rewrite (proj1 (Hkv y)) in Hky.
           assert (Shard.cache s !! key = Some (Some y)) as Hmy; [|congruence].
           apply Hc. eauto.
      * rewrite Hc. split.
        -- intros (y & -> & Hy & Hky). exists y.
           rewrite (proj1 (Hkv y)). split_and!; [done|by right|done].
        -- intros (y & -> & [->|Hy]%elem_of_cons & Hky); [congruence|].
           rewrite (proj1 (Hkv y)) in Hky. eauto.
    + rewrite Hsz, wrap_int_succ. f_equal. lia.
  - intros y [n Hy] Hyfp. rewrite Hout.
    + unfold h0. rewrite lookup_insert_ne; [done|].
      intros Heq. rewrite <- Heq in Hy. congruence.
    + intros [Heq|Hin]%elem_of_cons; [|done].
      rewrite Heq in Hy. congruence.
  - rewrite (proj2 (Hkv x)). unfold valueOf, h0. by rewrite lookup_insert_eq.
Qed.

(** ** Well-formed caches *)

Lemma shardIndex_bound c key :
  0 ≤ shardMask c < Z.of_nat (length (shards c)) →
  (shardIndex c key < length (shards c))%nat.
Proof.
  intros [Hlo Hhi]. unfold shardIndex.
  pose proof (land_mask_bound (hash c key) (shardMask c) Hlo). lia.
Qed.

Lemma cache_wf_lookup h c gs i s :
  cache_wf h c gs → shards c !! i = Some s →
  ∃ g, gs !! i = Some g ∧ shard_wf h s g.
Proof.
  intros [Hss _ _] Hs.
  destruct (Forall2_lookup_l _ _ _ _ _ Hss Hs) as (g & ? & ?). eauto.
Qed.

Lemma cache_wf_getShard h c gs key :
  cache_wf h c gs →
  ∃ s g, getShard c key = Some s ∧ gs !! shardIndex c key = Some g ∧ shard_wf h s g.
Proof.
  intros Hwf. unfold getShard.
  destruct (lookup_lt_is_Some_2 (shards c) (shardIndex c key)) as [s Hs].
  { apply shardIndex_bound, Hwf. }
  destruct (cache_wf_lookup _ _ _ _ _ Hwf Hs) as (g & ? & ?). eauto.
Qed.

(** Replacing one shard: the others are framed out. *)
Lemma cache_wf_update h h' c gs i s g s' g' :
  cache_wf h c gs →
  shards c !! i = Some s → gs !! i = Some g →
  shard_wf h' s' g' →
  (∀ y, is_Some (h !! y) → y ∉ footprint g → h' !! y = h !! y) →
  (∀ y, y ∈ footprint g' → y ∈ footprint g ∨ h !! y = None) →
  cache_wf h' (with_shard i s' c) (<[i := g']> gs).
Proof.
  intros [Hss Hdisj Hmask] Hs Hg Hwf' Hout Hfp.
  assert (Hother : ∀ j sj gj, j ≠ i → shards c !! j = Some sj → gs !! j = Some gj →
                     shard_wf h' sj gj).
  { intros j sj gj Hji Hsj Hgj.
    pose proof (Forall2_lookup_lr _ _ _ _ _ _ Hss Hsj Hgj) as Hwfj.
    eapply shard_wf_frame; [done|]. intros y Hy. apply Hout.
    - by eapply shard_wf_allocated.
    - intros Hyg. by eapply (Hdisj j i gj g y). }
  split.
  - simpl. apply Forall2_same_length_lookup. split.
    + rewrite !length_insert. by eapply Forall2_length.
    + intros j sj gj Hsj Hgj. destruct (decide (j = i)) as [->|Hji].
      * rewrite list_lookup_insert_eq in Hsj by (by eapply lookup_lt_Some).
        rewrite list_lookup_insert_eq in Hgj by (by eapply lookup_lt_Some).
        congruence.
      * rewrite list_lookup_insert_ne in Hsj by done.
        rewrite list_lookup_insert_ne in Hgj by done. eauto.
  - intros j k gj gk x Hgj Hgk Hjk Hxj Hxk.
    assert (Hold : ∀ m gm, m ≠ i → gs !! m = Some gm → x ∈ footprint gm →
                     x ∈ footprint g' → False).
    { intros m gm Hmi Hgm Hxm Hx'.
      destruct (Hfp x Hx') as [Hxg|Hxnone].
      - by eapply (Hdisj m i gm g x).
      - destruct (Forall2_lookup_r _ _ _ _ _ Hss Hgm) as (sm & _ & Hwfm).
        destruct (shard_wf_allocated _ _ _ _ Hwfm Hxm). congruence. }
    destruct (decide (j = i)) as [->|Hji], (decide (k = i)) as [->|Hki]; [done|..].
    + rewrite list_lookup_insert_eq in Hgj by (by eapply lookup_lt_Some).
      rewrite list_lookup_insert_ne in Hgk by done.
      injection Hgj as <-. by eapply (Hold k gk).
    + rewrite list_lookup_insert_eq in Hgk by (by eapply lookup_lt_Some).
      rewrite list_lookup_insert_ne in Hgj by done.
      injection Hgk as <-. by eapply (Hold j gj).
    + rewrite list_lookup_insert_ne in Hgj, Hgk by done.
      by eapply (Hdisj j k gj gk x).
  - simpl. by rewrite length_insert.
Qed.

Lemma with_shard_id c i s : shards c !! i = Some s → with_shard i s c = c.
Proof.
  intros Hs. unfold with_shard. rewrite list_insert_id by done. by destruct c.
Qed.

Lemma same_outside_frame X h h' :
  same_outside X h h' → ∀ y, is_Some (h !! y) → y ∉ X → h' !! y = h !! y.
Proof. intros Hout y _ Hy. by apply Hout. Qed.

(** ** Get and Put *)

Lemma Get_miss h c key s :
  getShard c key = Some s → Shard.cache s !! key = None →
  Get c key h = Some ((AnyNil, false), h).
Proof.
  intros Hs Hmiss. unfold Get. rewrite Hs.
  erewrite bind_Some by reflexivity. by rewrite Hmiss.
Qed.

Lemma shard_wf_resident h s g key p :
  shard_wf h s g → Shard.cache s !! key = Some p →
  ∃ x l1 l2 n, p = Some x ∧ lay_nodes g = l1 ++ x :: l2 ∧
               h !! x = Some n ∧ Node.key n = key.
Proof.
  intros Hwf Hp. apply (wf_cache _ _ _ Hwf) in Hp as (x & -> & Hx & Hk).
  destruct (list_elem_of_split _ _ Hx) as (l1 & l2 & Hsplit).
  unfold keyOf in Hk. destruct (h !! x) as [n|] eqn:Hn; [|done].
  injection Hk as Hk. by exists x, l1, l2, n.
Qed.

Lemma Get_hit_wf h c gs key s g x l1 l2 n :
  cache_wf h c gs →
  getShard c key = Some s → gs !! shardIndex c key = Some g →
  Shard.cache s !! key = Some (Some x) →
  lay_nodes g = l1 ++ x :: l2 → h !! x = Some n →
  ∃ h', Get c key h = Some ((Node.value n, true), h') ∧
        cache_wf h' c
          (<[shardIndex c key := Layout (lay_head g) (lay_tail g) (x :: l1 ++ l2)]> gs) ∧
        same_data h h'.
Proof.
  intros Hwf Hs Hg Hhit Hnodes Hn.
  pose proof (Forall2_lookup_lr _ _ _ _ _ _ (cwf_shards _ _ _ Hwf) Hs Hg) as Hswf.
  destruct (moveToFront_wf _ _ _ _ _ _ Hswf Hnodes) as (h' & Hrun & Hswf' & Hout & Hdata).
  assert (Hvalue : valueOf h' x = Some (Node.value n)).
  { destruct Hdata as [_ Hkv]. rewrite (proj2 (Hkv x)). unfold valueOf. by rewrite Hn. }
  unfold valueOf in Hvalue. destruct (h' !! x) as [n'|] eqn:Hn'; [|done].
  injection Hvalue as Hvalue.
  exists h'. split_and!; [| |done].
  - unfold Get. rewrite Hs. erewrite bind_Some by reflexivity. rewrite Hhit.
    erewrite bind_Some by done.
    erewrite bind_Some by (by apply load_Some).
    by rewrite Hvalue.
  - rewrite <- (with_shard_id c (shardIndex c key) s) at 1 by done.
    eapply cache_wf_update; [done|done|done|done|by apply same_outside_frame|].
    intros y Hy. left. revert Hy. unfold footprint. simpl. rewrite Hnodes.
    set_solver.
Qed.

Lemma Put_hit_wf h c gs key value s g x l1 l2 :
  cache_wf h c gs →
  getShard c key = Some s → gs !! shardIndex c key = Some g →
  Shard.cache s !! key = Some (Some x) →
  lay_nodes g = l1 ++ x :: l2 →
  ∃ h', Put c key value h = Some (c, h') ∧
        cache_wf h' c
          (<[shardIndex c key := Layout (lay_head g) (lay_tail g) (x :: l1 ++ l2)]> gs) ∧
        valueOf h' x = Some value ∧
        (∀ y, keyOf h' y = keyOf h y) ∧
        (∀ y, y ≠ x → valueOf h' y = valueOf h y).
Proof.
  intros Hwf Hs Hg Hhit Hnodes.
  pose proof (Forall2_lookup_lr _ _ _ _ _ _ (cwf_shards _ _ _ Hwf) Hs Hg) as Hswf.
  assert (Hxfp : x ∈ footprint g).
  { apply footprint_nodes. rewrite Hnodes. set_solver. }
  destruct (shard_wf_allocated _ _ _ _ Hswf Hxfp) as [n Hn].
  set (h0 := alter (Node.with_value value) x h).
  assert (Hswf0 : shard_wf h0 s g).
  { eapply shard_wf_congr; [done|..]; intros y; unfold h0.
    - apply nextOf_with_value.
    - apply prevOf_with_value.
    - by apply keyOf_alter. }
  destruct (moveToFront_wf _ _ _ _ _ _ Hswf0 Hnodes)
    as (h' & Hrun & Hswf' & Hout & [Hdom Hkv]).
  exists h'. split_and!.
  - unfold Put. rewrite Hs. erewrite bind_Some by reflexivity. rewrite Hhit.
    erewrite bind_Some by (by eapply store_Some). fold h0.
    by erewrite bind_Some by done.
  - rewrite <- (with_shard_id c (shardIndex c key) s) at 1 by done.
    eapply cache_wf_update; [done|done|done|done| |].
    + intros y _ Hy. rewrite Hout by done. unfold h0.
      rewrite lookup_alter_ne; [done|]. by intros ->.
    + intros y Hy. left. revert Hy. unfold footprint. simpl. rewrite Hnodes.
      set_solver.
  - rewrite (proj2 (Hkv x)). unfold valueOf, h0.
    by rewrite lookup_alter_eq, Hn.
  - intros y. rewrite (proj1 (Hkv y)). unfold h0. by apply keyOf_alter.
  - intros y Hy. rewrite (proj2 (Hkv y)). unfold valueOf, h0.
    by rewrite lookup_alter_ne.
Qed.

Lemma Put_miss_cache_wf h c gs key value s g :
  cache_wf h c gs →
  getShard c key = Some s → gs !! shardIndex c key = Some g →
  Shard.cache s !! key = None →
  ∃ x h' s',
    Put c key value h = Some (with_shard (shardIndex c key) s' c, h') ∧
    cache_wf h' (with_shard (shardIndex c key) s' c)
      (<[shardIndex c key := Layout (lay_head g) (lay_tail g) (x :: lay_nodes g)]> gs) ∧
    h !! x = None ∧
    s' = Shard.with_size (wrap_int (Shard.size s + 1))
           (Shard.with_cache (<[key := Some x]> (Shard.cache s)) s) ∧
    keyOf h' x = Some key ∧ valueOf h' x = Some value.
Proof.
  intros Hwf Hs Hg Hmiss.
  pose proof (Forall2_lookup_lr _ _ _ _ _ _ (cwf_shards _ _ _ Hwf) Hs Hg) as Hswf.
  destruct (Put_miss_wf _ _ _ key value Hswf Hmiss)
    as (x & h' & Hx & Hnew & Hrun & Hswf' & Hout & Hk & Hv).
  exists x, h', (Shard.with_size (wrap_int (Shard.size s + 1))
                   (Shard.with_cache (<[key := Some x]> (Shard.cache s)) s)).
  split_and!; [| |done|reflexivity|done|done].
  - unfold Put. rewrite Hs. erewrite bind_Some by reflexivity. rewrite Hmiss.
    erewrite bind_Some by done.
    erewrite bind_Some by done.
    destruct (_ >? _); reflexivity.
  - eapply cache_wf_update; [done|done|done|done|done|].
    intros y. unfold footprint. simpl.
    intros [->|[->|Hy]%elem_of_cons]%elem_of_cons.
    + left. by left.
    + by right.
    + left. by right.
Qed.

(** ** Clear *)

Lemma disjoint_layouts_cons g gs :
  disjoint_layouts (g :: gs) ↔
  (∀ g' x, g' ∈ gs → x ∈ footprint g → x ∈ footprint g' → False) ∧
  disjoint_layouts gs.
Proof.
  split.
  - intros Hd. split.
    + intros g' x [j Hj]%list_elem_of_lookup Hx Hx'.
      by apply (Hd 0%nat (S j) g g' x).
    + intros i j gi gj x Hi Hj Hij. apply (Hd (S i) (S j) gi gj x); [done|done|lia].
  - intros [Hhd Htl] i j gi gj x Hi Hj Hij Hxi Hxj.
    destruct i as [|i], j as [|j]; simpl in Hi, Hj; [done|..].
    + injection Hi as <-.
      apply (Hhd gj x); [by eapply list_elem_of_lookup_2|done|done].
    + injection Hj as <-.
      apply (Hhd gi x); [by eapply list_elem_of_lookup_2|done|done].
    + eapply (Htl i j gi gj x); [done|done|lia|done|done].
Qed.

Lemma footprint_emptied g x : x ∈ footprint (emptied g) → x ∈ footprint g.
Proof. unfold footprint, emptied. simpl. set_solver. Qed.

Lemma disjoint_layouts_emptied gs :
  disjoint_layouts gs → disjoint_layouts (emptied <$> gs).
Proof.
  intros Hd i j gi gj x Hi Hj Hij Hxi Hxj.
  rewrite list_lookup_fmap in Hi, Hj.
  destruct (gs !! i) as [gi'|] eqn:Hi'; [|done].
  destruct (gs !! j) as [gj'|] eqn:Hj'; [|done].
  injection Hi as <-. injection Hj as <-.
  apply (Hd i j gi' gj' x); auto using footprint_emptied.
Qed.

Lemma clearShards_wf ss : ∀ gs h,
  Forall2 (shard_wf h) ss gs →
  disjoint_layouts gs →
  ∃ h', clearShards ss h = Some (cleared <$> ss, h') ∧
        Forall2 (shard_wf h') (cleared <$> ss) (emptied <$> gs) ∧
        (∀ y, (∀ g, g ∈ gs → y ∉ footprint g) → h' !! y = h !! y) ∧
        same_data h h'.
Proof.
  induction ss as [|s ss IH]; intros gs h Hss Hd.
  - apply Forall2_nil_inv_l in Hss as ->. exists h.
    split_and!; [done|constructor|done|apply same_data_refl].
  - apply Forall2_cons_inv_l in Hss as (g & gs' & Hs & Hss & ->).
    apply disjoint_layouts_cons in Hd as [Hhd Hd].
    destruct (clearShard_wf _ _ _ Hs) as (h1 & Hrun1 & Hs1 & Hout1 & Hdata1).
    assert (Hss1 : Forall2 (shard_wf h1) ss gs').
    { apply Forall2_same_length_lookup. split; [by eapply Forall2_length|].
      intros j sj gj Hsj Hgj.
      eapply shard_wf_frame; [by eapply Forall2_lookup_lr|].
      intros y Hy. apply Hout1. intros Hin.
      eapply (Hhd gj y); [by eapply list_elem_of_lookup_2| |done].
      apply footprint_emptied. exact Hin. }
    destruct (IH gs' h1 Hss1 Hd) as (h' & Hrun & Hss' & Hout & Hdata).
    exists h'. split_and!.
    + simpl. erewrite bind_Some by done. by erewrite bind_Some by done.
    + simpl. constructor; [|done].
      eapply shard_wf_frame; [done|]. intros y Hy. apply Hout.
      intros g' Hg' Hyg'. apply (Hhd g' y Hg'); [|done].
      by apply footprint_emptied.
    + intros y Hy. rewrite Hout.
      * apply Hout1. intros Hin. apply (Hy g); [by left|].
        apply footprint_emptied. exact Hin.
      * intros g' Hg'. apply Hy. by right.
    + by eapply same_data_trans.
Qed.

Lemma Clear_wf h c gs :
  cache_wf h c gs →
  ∃ h', Clear c h = Some (mkLRUCache (cleared <$> shards c) (shardMask c), h') ∧
        cache_wf h' (mkLRUCache (cleared <$> shards c) (shardMask c)) (emptied <$> gs) ∧
        same_data h h'.
Proof.
  intros [Hss Hd Hmask].
  destruct (clearShards_wf _ _ _ Hss Hd) as (h' & Hrun & Hss' & _ & Hdata).
  exists h'. split_and!; [|split|done].
  - unfold Clear. by erewrite bind_Some by done.
  - done.
  - by apply disjoint_layouts_emptied.
  - simpl. by rewrite length_fmap.
Qed.

(** ** evictLRU *)

Lemma evictLRU_cache_wf h c gs i s :
  cache_wf h c gs → shards c !! i = Some s →
  ∃ s' h' g, evictLRU s h = Some (s', h') ∧
    gs !! i = Some g ∧
    cache_wf h' (with_shard i s' c)
      (<[i := Layout (lay_head g) (lay_tail g) (removelast (lay_nodes g))]> gs) ∧
    same_data h h'.
Proof.
  intros Hwf Hs.
  destruct (cache_wf_lookup _ _ _ _ _ Hwf Hs) as (g & Hg & Hswf).
  destruct (evictLRU_wf _ _ _ Hswf) as (s' & h' & Hrun & Hswf' & Hout & Hdata & _).
  exists s', h', g. split_and!; [done|done| |done].
  eapply cache_wf_update; [done|done|done|done|by apply same_outside_frame|].
  intros y Hy. left. revert Hy. unfold footprint. simpl.
  destruct (lay_nodes g) as [|x l _] using rev_ind; [done|].
  rewrite removelast_last. set_solver.
Qed.

(** ** Construction *)

Lemma numShardsOf_bounds numCPU : 1024 ≤ numShardsOf numCPU < 2 ^ 32.
Proof.
  unfold numShardsOf, nextPowerOf2.
  pose proof (Z.mod_pos_bound (wrap_int (numCPU * 4)) (2 ^ 32)) as Hb.
  unfold wrap_uint32. repeat case_match; lia.
Qed.

Lemma shardCapacityOf_pos numShards capacity : 1 ≤ shardCapacityOf numShards capacity.
Proof. unfold shardCapacityOf. case_match; lia. Qed.

Lemma makeShards_wf n capacity : ∀ h,
  ∃ ss h' gs,
    makeShards n capacity h = Some (ss, h') ∧
    length ss = n ∧
    Forall2 (shard_wf h') ss gs ∧
    disjoint_layouts gs ∧
    (∀ g x, g ∈ gs → x ∈ footprint g → h !! x = None) ∧
    (∀ y, is_Some (h !! y) → h' !! y = h !! y) ∧
    Forall (λ s, Shard.capacity s = capacity ∧ Shard.size s = 0 ∧
                 Shard.cache s = ∅) ss.
Proof.
  induction n as [|n IH]; intros h.
  - exists [], h, []. split_and!; [done|done|constructor| | |done|constructor].
    + intros i j gi gj x Hi. by rewrite lookup_nil in Hi.
    + intros g x Hg. by apply elem_of_nil in Hg.
  - destruct (newShard_wf h capacity) as (h1 & hd & tl & Hrun1 & Hs1 & Hhd & Htl & Hout1).
    destruct (IH h1) as (ss & h' & gs & Hrun & Hlen & Hss & Hd & Hfresh & Hout & Hall).
    set (s := Shard.mk capacity 0 ∅ (Some hd) (Some tl)) in *.
    assert (Hfp1 : ∀ x, x ∈ footprint (Layout hd tl []) → is_Some (h1 !! x))
      by (intros x; by eapply shard_wf_allocated).
    exists (s :: ss), h', (Layout hd tl [] :: gs). split_and!.
    + simpl. erewrite bind_Some by done. by erewrite bind_Some by done.
    + simpl. by rewrite Hlen.
    + constructor; [|done].
      eapply shard_wf_frame; [done|]. intros y Hy. by apply Hout, Hfp1.
    + apply disjoint_layouts_cons. split; [|done].
      intros g' x Hg' Hx Hx'. destruct (Hfp1 x Hx) as [n1 Hn1].
      rewrite (Hfresh g' x Hg' Hx') in Hn1. done.
    + intros g x [->|Hg]%elem_of_cons Hx.
      * revert Hx. unfold footprint. simpl.
        by intros [->|[->|[]%elem_of_nil]%elem_of_cons]%elem_of_cons.
      * destruct (h !! x) as [nx|] eqn:Hnx; [|done].
        rewrite <- (Hfresh g x Hg Hx). symmetry. rewrite <- Hnx. apply Hout1.
        by rewrite Hnx.
    + intros y Hy. rewrite Hout; [by apply Hout1|]. by rewrite Hout1.
    + by constructor.
Qed.

Lemma NewLRUCache_wf numCPU capacity h :
  ∃ c h' gs,
    NewLRUCache numCPU capacity h = Some (c, h') ∧
    cache_wf h' c gs ∧
    Z.of_nat (length (shards c)) = numShardsOf numCPU ∧
    shardMask c = numShardsOf numCPU - 1 ∧
    Forall (λ s, Shard.capacity s = shardCapacityOf (numShardsOf numCPU) capacity ∧
                 Shard.size s = 0 ∧ Shard.cache s = ∅) (shards c).
Proof.
  pose proof (numShardsOf_bounds numCPU) as Hb.
  destruct (makeShards_wf (Z.to_nat (numShardsOf numCPU))
              (shardCapacityOf (numShardsOf numCPU) capacity) h)
    as (ss & h' & gs & Hrun & Hlen & Hss & Hd & _ & _ & Hall).
  assert (Hmask : wrap_uint32 (numShardsOf numCPU - 1) = numShardsOf numCPU - 1).
  { unfold wrap_uint32. apply Z.mod_small. lia. }
  exists (mkLRUCache ss (wrap_uint32 (numShardsOf numCPU - 1))), h', gs.
  split_and!; [|split|..]; simpl; try done.
  - unfold NewLRUCache. by erewrite bind_Some by done.
  - rewrite Hmask, Hlen. lia.
  - rewrite Hlen. lia.
Qed.

(** ** Sequences of calls *)

Lemma sentinels_with_shard c i s s' :
  shards c !! i = Some s →
  Shard.head s' = Shard.head s → Shard.tail s' = Shard.tail s →
  sentinels (with_shard i s' c) = sentinels c.
Proof.
  intros Hs Hhd Htl. unfold sentinels, with_shard. simpl.
  rewrite list_fmap_insert, Hhd, Htl.
  apply list_insert_id. by rewrite list_lookup_fmap, Hs.
Qed.

Lemma sentinels_cleared (ss : list Shard.t) :
  (λ s, (Shard.head s, Shard.tail s)) <$> (cleared <$> ss)
  = (λ s, (Shard.head s, Shard.tail s)) <$> ss.
Proof. rewrite <- list_fmap_compose. by apply list_fmap_ext. Qed.

Lemma sentinels_length c c' :
  sentinels c' = sentinels c → length (shards c') = length (shards c).
Proof.
  intros Heq. apply (f_equal length) in Heq.
  unfold sentinels in Heq. by rewrite !length_fmap in Heq.
Qed.

(** Every call runs to completion on a well-formed state and leaves it
    well-formed; it replaces neither the mask nor any shard, lengthens no
    recency list by more than one node, and adds no key to a lookup table
    but the key it puts. *)
Lemma step_wf h c gs o n (K : list string) :
  cache_wf h c gs →
  Forall (λ g, (length (lay_nodes g) ≤ n)%nat) gs →
  (∀ s k, s ∈ shards c → is_Some (Shard.cache s !! k) → k ∈ K) →
  ∃ c' h' gs',
    step c o h = Some (c', h') ∧ cache_wf h' c' gs' ∧
    Forall (λ g, (length (lay_nodes g) ≤ S n)%nat) gs' ∧
    (∀ s k, s ∈ shards c' → is_Some (Shard.cache s !! k) → k ∈ put_keys [o] ++ K) ∧
    shardMask c' = shardMask c ∧ sentinels c' = sentinels c.
Proof.
  intros Hwf Hb HK.
  assert (Hb' : Forall (λ g, (length (lay_nodes g) ≤ S n)%nat) gs)
    by (eapply Forall_impl; [exact Hb|]; simpl; lia).
  assert (Hbi : ∀ i g, gs !! i = Some g → (length (lay_nodes g) ≤ n)%nat).
  { intros i g Hg. rewrite Forall_forall in Hb. apply Hb.
    by eapply list_elem_of_lookup_2. }
  destruct o as [key|key value|]; simpl.
  - destruct (cache_wf_getShard _ _ _ key Hwf) as (s & g & Hs & Hg & Hswf).
    destruct (Shard.cache s !! key) as [p|] eqn:Hp.
    + destruct (shard_wf_resident _ _ _ _ _ Hswf Hp)
        as (x & l1 & l2 & n0 & -> & Hnodes & Hn & _).
      destruct (Get_hit_wf _ _ _ _ _ _ _ _ _ _ Hwf Hs Hg Hp Hnodes Hn)
        as (h' & Hrun & Hwf' & _).
      eexists c, h', _.
      split_and!; [by erewrite bind_Some by done|done| |done..].
      apply Forall_insert; [done|]. simpl.
      specialize (Hbi _ _ Hg). rewrite Hnodes in Hbi.
      rewrite !length_app in *. simpl in *. lia.
    + exists c, h, gs. split_and!; [|done..].
      by erewrite bind_Some by (by eapply Get_miss).
  - destruct (cache_wf_getShard _ _ _ key Hwf) as (s & g & Hs & Hg & Hswf).
    destruct (Shard.cache s !! key) as [p|] eqn:Hp.
    + destruct (shard_wf_resident _ _ _ _ _ Hswf Hp)
        as (x & l1 & l2 & n0 & -> & Hnodes & Hn & _).
      destruct (Put_hit_wf _ _ _ _ value _ _ _ _ _ Hwf Hs Hg Hp Hnodes)
        as (h' & Hrun & Hwf' & _).
      eexists c, h', _. split_and!; [done|done| | |done..].
      * apply Forall_insert; [done|]. simpl.
        specialize (Hbi _ _ Hg). rewrite Hnodes in Hbi.
        rewrite !length_app in *. simpl in *. lia.
      * intros s0 k Hs0 Hk. right. by eapply HK.
    + destruct (Put_miss_cache_wf _ _ _ _ value _ _ Hwf Hs Hg Hp)
        as (x & h' & s' & Hrun & Hwf' & _ & -> & _).
      eexists _, h', _. split_and!; [done|done| | |done|].
      * apply Forall_insert; [done|]. simpl. specialize (Hbi _ _ Hg). lia.
      * intros s0 k [j Hj]%list_elem_of_lookup Hk. simpl in Hj.
        destruct (decide (j = shardIndex c key)) as [->|Hne].
        -- rewrite list_lookup_insert_eq in Hj by (by eapply lookup_lt_Some).
           injection Hj as <-. simpl in Hk. rewrite lookup_insert in Hk.
           case_decide as Hkk; [subst; by left|].
           right. eapply HK; [|done]. by eapply list_elem_of_lookup_2.
        -- rewrite list_lookup_insert_ne in Hj by done.
           right. eapply HK; [|done]. by eapply list_elem_of_lookup_2.
      * by eapply sentinels_with_shard.
  - destruct (Clear_wf _ _ _ Hwf) as (h' & Hrun & Hwf' & _).
    eexists _, h', _. split_and!; [done|done| | |done|].
    + apply Forall_fmap, Forall_forall. intros g _. simpl. lia.
    + intros s0 k [s1 [-> _]]%list_elem_of_fmap Hk. simpl in Hk.
      rewrite lookup_empty in Hk. by destruct Hk.
    + apply sentinels_cleared.
Qed.

Lemma step_inv h c o :
  cache_inv h c →
  ∃ c' h', step c o h = Some (c', h') ∧ cache_inv h' c' ∧
           shardMask c' = shardMask c ∧ sentinels c' = sentinels c.
Proof.
  intros [gs Hwf].
  assert (∃ n, Forall (λ g, (length (lay_nodes g) ≤ n)%nat) gs) as [n Hb].
  { clear Hwf. induction gs as [|g gs [n IH]]; [by exists 0%nat|].
    exists (length (lay_nodes g) `max` n)%nat. constructor; [lia|].
    eapply Forall_impl; [exact IH|]. simpl. lia. }
  assert (∃ K : list string,
            ∀ s k, s ∈ shards c → is_Some (Shard.cache s !! k) → k ∈ K)
    as [K HK].
  { clear. induction (shards c) as [|s ss [K IH]].
    - exists []. intros s k Hs. by apply elem_of_nil in Hs.
    - exists ((map_to_list (Shard.cache s)).*1 ++ K).
      intros s0 k [->|Hs0]%elem_of_cons Hk; apply elem_of_app; [left|right; eauto].
      destruct Hk as [p Hp]. apply list_elem_of_fmap. exists (k, p).
      split; [done|]. by apply elem_of_map_to_list. }
  destruct (step_wf h c gs o n K Hwf Hb HK)
    as (c' & h' & gs' & Hrun & Hwf' & _ & _ & Hm & Hs).
  exists c', h'. split_and!; [done|by eexists|done..].
Qed.

Lemma put_keys_cons o os : put_keys (o :: os) = put_keys [o] ++ put_keys os.
Proof. unfold put_keys. simpl. by destruct o. Qed.

Lemma run_wf os : ∀ h c gs n (K : list string),
  cache_wf h c gs →
  Forall (λ g, (length (lay_nodes g) ≤ n)%nat) gs →
  (∀ s k, s ∈ shards c → is_Some (Shard.cache s !! k) → k ∈ K) →
  ∃ c' h' gs',
    run c os h = Some (c', h') ∧ cache_wf h' c' gs' ∧
    Forall (λ g, (length (lay_nodes g) ≤ length os + n)%nat) gs' ∧
    (∀ s k, s ∈ shards c' → is_Some (Shard.cache s !! k) → k ∈ put_keys os ++ K).
Proof.
  induction os as [|o os IH]; intros h c gs n K Hwf Hb HK.
  - by exists c, h, gs.
  - destruct (step_wf h c gs o n K Hwf Hb HK)
      as (c1 & h1 & gs1 & Hstep & Hwf1 & Hb1 & HK1 & _).
    destruct (IH h1 c1 gs1 (S n) _ Hwf1 Hb1 HK1) as (c' & h' & gs' & Hrun & Hwf' & Hb' & HK').
    exists c', h', gs'. split_and!; [|done| |].
    + simpl. by erewrite bind_Some by done.
    + eapply Forall_impl; [exact Hb'|]. simpl. lia.
    + intros s k Hs Hk. specialize (HK' s k Hs Hk).
      rewrite put_keys_cons. rewrite !elem_of_app in *. tauto.
Qed.

Lemma run_inv os : ∀ h c,
  cache_inv h c →
  ∃ c' h', run c os h = Some (c', h') ∧ cache_inv h' c' ∧
           shardMask c' = shardMask c ∧ sentinels c' = sentinels c.
Proof.
  induction os as [|o os IH]; intros h c Hinv.
  - by exists c, h.
  - destruct (step_inv h c o Hinv) as (c1 & h1 & Hstep & Hinv1 & Hm1 & Hs1).
    destruct (IH h1 c1 Hinv1) as (c' & h' & Hrun & Hinv' & Hm & Hs).
    exists c', h'. split_and!; [|done|congruence..].
    simpl. by erewrite bind_Some by done.
Qed.

(** Construction followed by any calls: the reachable states. *)
Lemma reachable numCPU capacity h0 os :
  ∃ c0 h1 c h,
    NewLRUCache numCPU capacity h0 = Some (c0, h1) ∧
    run c0 os h1 = Some (c, h) ∧
    cache_inv h1 c0 ∧ cache_inv h c ∧
    shardMask c = shardMask c0 ∧ sentinels c = sentinels c0 ∧
    Z.of_nat (length (shards c0)) = numShardsOf numCPU ∧
    shardMask c0 = numShardsOf numCPU - 1 ∧
    Forall (λ s, Shard.capacity s = shardCapacityOf (numShardsOf numCPU) capacity ∧
                 Shard.size s = 0 ∧ Shard.cache s = ∅) (shards c0).
Proof.
  destruct (NewLRUCache_wf numCPU capacity h0)
    as (c0 & h1 & gs & Hnew & Hwf & Hlen & Hmask & Hall).
  destruct (run_inv os h1 c0) as (c & h & Hrun & Hinv & Hm & Hs); [by eexists|].
  exists c0, h1, c, h. split_and!; try done. by eexists.
Qed.

Lemma state_after_inv numCPU capacity os :
  cache_inv (state_after numCPU capacity os).2 (state_after numCPU capacity os).1.
Proof.
  destruct (reachable numCPU capacity ∅ os)
    as (c0 & h1 & c & h & Hnew & Hrun & _ & Hinv & _).
  unfold state_after. erewrite bind_Some by done. by rewrite Hrun.
Qed.

(** ** Agreement of the counts on well-formed shards *)

Lemma wrap_int_range z : - 2 ^ 63 ≤ wrap_int z ≤ max_int.
Proof.
  unfold wrap_int, max_int.
  pose proof (Z.mod_pos_bound (z + 2 ^ 63) (2 ^ 64)). lia.
Qed.

(** For a well-formed shard the counts agree exactly when the list length
    fits an [int]. *)
Lemma shard_wf_counts h s g :
  shard_wf h s g →
  counts_agree h s ↔ Z.of_nat (length (lay_nodes g)) ≤ max_int.
Proof.
  intros Hwf. unfold counts_agree.
  rewrite (shard_wf_realNodes _ _ _ Hwf), (shard_wf_table_size _ _ _ Hwf).
  rewrite (wf_size _ _ _ Hwf). simpl. split.
  - intros [_ Heq]. rewrite Heq. apply wrap_int_range.
  - intros Hle. rewrite wrap_int_small by (unfold max_int in *; lia). done.
Qed.

Lemma counts_from_wf h c gs :
  cache_wf h c gs →
  Forall (λ g, Z.of_nat (length (lay_nodes g)) ≤ max_int) gs →
  Forall (counts_agree h) (shards c).
Proof.
  intros [Hss _ _] Hb. induction Hss as [|s g ss gs' Hs _ IH]; [constructor|].
  apply Forall_cons in Hb as [Hg Hb]. constructor; [|by apply IH].
  by apply (shard_wf_counts _ _ _ Hs).
Qed.

Lemma bounds_from_counts h c gs :
  cache_wf h c gs →
  Forall (counts_agree h) (shards c) →
  Forall (λ g, Z.of_nat (length (lay_nodes g)) ≤ max_int) gs.
Proof.
  intros [Hss _ _] Hc. induction Hss as [|s g ss gs' Hs _ IH]; [constructor|].
  apply Forall_cons in Hc as [Hcs Hc]. constructor; [|by apply IH].
  by apply (shard_wf_counts _ _ _ Hs).
Qed.

Lemma shardIndex_with_shard c i s key :
  shardIndex (with_shard i s c) key = shardIndex c key.
Proof. reflexivity. Qed.

Lemma lookupTable_getShard c key s :
  getShard c key = Some s → lookupTable c key = Shard.cache s !! key.
Proof. unfold lookupTable. by intros ->. Qed.

(** In a reachable state no recency list is longer than the number of
    calls issued, and every key of a lookup table was put. *)
Lemma reachable_tracked numCPU capacity h0 os :
  ∃ c0 h1 c h gs,
    NewLRUCache numCPU capacity h0 = Some (c0, h1) ∧
    run c0 os h1 = Some (c, h) ∧
    cache_wf h c gs ∧
    Forall (λ g, (length (lay_nodes g) ≤ length os)%nat) gs ∧
    (∀ s k, s ∈ shards c → is_Some (Shard.cache s !! k) → k ∈ put_keys os).
Proof.
  destruct (NewLRUCache_wf numCPU capacity h0)
    as (c0 & h1 & gs0 & Hnew & Hwf0 & _ & _ & Hall).
  assert (Hb0 : Forall (λ g, (length (lay_nodes g) ≤ 0)%nat) gs0).
  { apply Forall_forall. intros g [i Hg]%list_elem_of_lookup.
    destruct (Forall2_lookup_r _ _ _ _ _ (cwf_shards _ _ _ Hwf0) Hg)
      as (s & Hs & Hswf).
    rewrite <- (shard_wf_table_size _ _ _ Hswf).
    rewrite Forall_forall in Hall.
    destruct (Hall s) as (_ & _ & ->); [by eapply list_elem_of_lookup_2|].
    by rewrite map_size_empty. }
  assert (HK0 : ∀ s k, s ∈ shards c0 → is_Some (Shard.cache s !! k) → k ∈ @nil string).
  { intros s k Hs Hk. rewrite Forall_forall in Hall.
    destruct (Hall s Hs) as (_ & _ & Hempty).
    rewrite Hempty, lookup_empty in Hk. by destruct Hk. }
  destruct (run_wf os h1 c0 gs0 0%nat [] Hwf0 Hb0 HK0)
    as (c & h & gs & Hrun & Hwf & Hb & HK).
  exists c0, h1, c, h, gs. split_and!; [done|done|done| |].
  - eapply Forall_impl; [exact Hb|]. simpl. lia.
  - intros s k Hs Hk. specialize (HK s k Hs Hk). by rewrite app_nil_r in HK.
Qed.

(** The triple equality holds in every state reached by fewer than 2^63
    calls. *)
Lemma reachable_counts_agree numCPU capacity h0 os :
  Z.of_nat (length os) ≤ max_int →
  ∃ c0 h1 c h,
    NewLRUCache numCPU capacity h0 = Some (c0, h1) ∧
    run c0 os h1 = Some (c, h) ∧
    Forall (counts_agree h) (shards c).
Proof.
  intros Hlen.
  destruct (reachable_tracked numCPU capacity h0 os)
    as (c0 & h1 & c & h & gs & Hnew & Hrun & Hwf & Hb & _).
  exists c0, h1, c, h. split_and!; [done|done|].
  eapply counts_from_wf; [done|].
  eapply Forall_impl; [exact Hb|]. simpl. lia.
Qed.

(** A key that was never put is absent, and a get of it misses. *)
Lemma never_put_absent numCPU capacity h0 os key :
  key ∉ put_keys os →
  ∃ c0 h1 c h,
    NewLRUCache numCPU capacity h0 = Some (c0, h1) ∧
    run c0 os h1 = Some (c, h) ∧
    lookupTable c key = None ∧
    Get c key h = Some ((AnyNil, false), h).
Proof.
  intros Hkey.
  destruct (reachable_tracked numCPU capacity h0 os)
    as (c0 & h1 & c & h & gs & Hnew & Hrun & Hwf & _ & HK).
  destruct (cache_wf_getShard _ _ _ key Hwf) as (s & _ & Hs & _).
  assert (Hmiss : Shard.cache s !! key = None).
  { destruct (Shard.cache s !! key) as [p|] eqn:Hp; [|done].
    destruct Hkey. apply (HK s); [by eapply list_elem_of_lookup_2|].
    by rewrite Hp. }
  exists c0, h1, c, h. split_and!; [done|done| |by apply (Get_miss _ _ _ s)].
  by rewrite (lookupTable_getShard _ _ _ Hs).
Qed.

(** * Properties of the specification *)

(** ** Capacity and eviction *)

(** On every well-formed cache a put of a key that is not resident adds a
    node and increments the size of its shard, whatever the capacity: no
    path of [Put] removes an entry. *)
Lemma Put_new_key_grows h c key value s :
  cache_inv h c →
  getShard c key = Some s → Shard.cache s !! key = None →
  ∃ c' h' s',
    Put c key value h = Some (c', h') ∧
    getShard c' key = Some s' ∧
    Shard.capacity s' = Shard.capacity s ∧
    Shard.size s' = wrap_int (Shard.size s + 1) ∧
    (∀ k, is_Some (Shard.cache s !! k) → is_Some (Shard.cache s' !! k)).
Proof.
  intros [gs Hwf] Hs Hmiss.
  destruct (cache_wf_getShard _ _ _ key Hwf) as (s0 & g & Hs0 & Hg & _).
  assert (s0 = s) as -> by congruence.
  destruct (Put_miss_cache_wf _ _ _ _ value _ _ Hwf Hs Hg Hmiss)
    as (x & h' & s' & Hrun & _ & _ & -> & _).
  exists (with_shard (shardIndex c key)
            (Shard.with_size (wrap_int (Shard.size s + 1))
               (Shard.with_cache (<[key:=Some x]> (Shard.cache s)) s)) c), h',
    (Shard.with_size (wrap_int (Shard.size s + 1))
       (Shard.with_cache (<[key:=Some x]> (Shard.cache s)) s)).
  split_and!; [done| |reflexivity|reflexivity|].
  - unfold getShard. rewrite shardIndex_with_shard. simpl.
    apply list_lookup_insert_eq. by eapply lookup_lt_Some.
  - intros k Hk. simpl. rewrite lookup_insert. by case_decide.
Qed.

(** C1 (capacity invariant), evaluated on the code.  A cache of total
    capacity 1024 gives each of its 1024 shards capacity 1; the keys
    "user:38" and "user:122" are both routed to shard 875.  After the two
    puts that shard holds both keys and its size is 2: [Put] takes the
    overflow branch and returns without evicting. *)
Theorem Put_exceeds_capacity :
  result (c ← NewLRUCache 8 1024;
          c ← Put c "user:38" (AnyInt 1);
          c ← Put c "user:122" (AnyInt 2);
          s ← lift (getShard c "user:122");
          ks ← inspect (λ h, recencyKeys h s);
          mret (shardIndex c "user:38", shardIndex c "user:122",
                Shard.capacity s, Shard.size s, ks))
  = Some (875%nat, 875%nat, 1, 2, Some ["user:122"; "user:38"]%string).
Proof. vm_compute. reflexivity. Qed.

(** C2 (recency correctness), evaluated on the code.  Shards of capacity
    2; A = "user:38", B = "user:122" and C = "user:320" share shard 875.
    After put(A), put(B), get(A), put(C) the recency order is C, A, B: B is
    the least recently used entry, as the specification expects, but it is still
    resident (a later get(B) finds it) and the shard holds 3 entries. *)
Theorem Put_evicts_nothing :
  result (c ← NewLRUCache 8 2048;
          c ← Put c "user:38" (AnyInt 1);
          c ← Put c "user:122" (AnyInt 2);
          _ ← Get c "user:38";
          c ← Put c "user:320" (AnyInt 3);
          s ← lift (getShard c "user:320");
          ks ← inspect (λ h, recencyKeys h s);
          b ← Get c "user:122";
          mret (Shard.capacity s, Shard.size s, ks, b))
  = Some (2, 3, Some ["user:320"; "user:38"; "user:122"]%string, (AnyInt 2, true)).
Proof. vm_compute. reflexivity. Qed.

(** ** Construction *)



(** C9 (the shard count is always a power of two), evaluated on the
    code.  With 300 processors [nextPowerOf2] receives 1200 and returns it
    unrounded: the cache has 1200 shards, which is no power of two, and
    the mask is 1199.  Bit 4 of that mask is clear, so no key is ever
    routed to shard 16: masking selects shards unevenly. *)
Theorem shard_count_not_power_of_two :
  result (c ← NewLRUCache 300 1000000;
          mret (Z.of_nat (length (shards c)), shardMask c)) = Some (1200, 1199) ∧
  (∀ k, 2 ^ k ≠ 1200) ∧
  spec_nextPowerOfTwo 1200 = 2048 ∧
  (∀ key, shardIndex (mkLRUCache [] 1199) key ≠ 16%nat).
Proof.
  split_and!.
  - vm_compute. reflexivity.
  - intros k Hk. destruct (Z_lt_le_dec k 11) as [Hlt|Hge].
    + assert (2 ^ k ≤ 2 ^ 10); [|lia].
      destruct (Z_lt_le_dec k 0) as [Hneg|Hpos].
      * rewrite Z.pow_neg_r by done. lia.
      * apply Z.pow_le_mono_r; lia.
    + assert (2 ^ 11 ≤ 2 ^ k) by (apply Z.pow_le_mono_r; lia). lia.
  - reflexivity.
  - intros key Hidx. unfold shardIndex in Hidx. simpl in Hidx.
    pose proof (land_mask_bound (hash (mkLRUCache [] 1199) key) 1199) as [Hnn _];
      [lia|].
    assert (Hland : Z.land (hash (mkLRUCache [] 1199) key) 1199 = 16) by lia.
    apply (f_equal (λ z, Z.testbit z 4)) in Hland.
    rewrite Z.land_spec in Hland.
    change (Z.testbit 1199 4) with false in Hland.
    change (Z.testbit 16 4) with true in Hland.
    by rewrite andb_false_r in Hland.
Qed.

(** Below that, the count is 1024 whatever the processor count and the
    requested capacity: with 8 processors and capacity 10 the cache has
    1024 shards, which is neither max(16, nextPowerOfTwo(4 × 8)) = 32 nor
    at most the requested capacity. *)
Lemma shard_count_not_as_specified :
  result (c ← NewLRUCache 8 10; mret (Z.of_nat (length (shards c)))) = Some 1024 ∧
  1024 ≠ spec_shardCount 8 ∧
  ¬ 1024 ≤ 10.
Proof. split_and!; [vm_compute; reflexivity|vm_compute; discriminate|lia]. Qed.

(** ** The partitioner *)

(** C4: for every constructed cache and every key, the key-to-shard
    mapping evaluated after any sequence of calls gives the index it gave
    at construction, and the shard at that index is the same object (same
    slot of a slice of unchanged length, same sentinels). *)
Theorem partition_stable numCPU capacity h0 os key :
  ∃ c0 h1 c h,
    NewLRUCache numCPU capacity h0 = Some (c0, h1) ∧
    run c0 os h1 = Some (c, h) ∧
    hash c key = hash c0 key ∧
    shardIndex c key = shardIndex c0 key ∧
    length (shards c) = length (shards c0) ∧
    ∃ s0 s, getShard c0 key = Some s0 ∧ getShard c key = Some s ∧
            Shard.head s = Shard.head s0 ∧ Shard.tail s = Shard.tail s0.
Proof.
  destruct (reachable numCPU capacity h0 os)
    as (c0 & h1 & c & h & Hnew & Hrun & [gs0 Hwf0] & [gs Hwf] & Hmask & Hsent & _).
  assert (Hidx : shardIndex c key = shardIndex c0 key)
    by (unfold shardIndex, hash; by rewrite Hmask).
  destruct (cache_wf_getShard _ _ _ key Hwf0) as (s0 & _ & Hs0 & _).
  destruct (cache_wf_getShard _ _ _ key Hwf) as (s & _ & Hs & _).
  exists c0, h1, c, h. split_and!; [done|done|done|done|by apply sentinels_length|].
  exists s0, s. split; [done|]. split; [done|].
  unfold getShard in Hs0, Hs. rewrite Hidx in Hs.
  assert (Hlk : sentinels c !! shardIndex c0 key = sentinels c0 !! shardIndex c0 key)
    by (by rewrite Hsent).
  unfold sentinels in Hlk. rewrite !list_lookup_fmap, Hs, Hs0 in Hlk.
  simpl in Hlk. by injection Hlk.
Qed.

(** C10: for every constructed cache, after any sequence of calls, and for
    every key, the index computed by [getShard] (the FNV-1a hash masked
    with [shardMask], which is the shard count minus one) is below the
    length of the shard slice, so the slice access succeeds. *)
Theorem shardIndex_in_bounds numCPU capacity h0 os key :
  ∃ c0 h1 c h,
    NewLRUCache numCPU capacity h0 = Some (c0, h1) ∧
    run c0 os h1 = Some (c, h) ∧
    shardMask c = Z.of_nat (length (shards c)) - 1 ∧
    (shardIndex c key < length (shards c))%nat ∧
    is_Some (getShard c key).
Proof.
  destruct (reachable numCPU capacity h0 os)
    as (c0 & h1 & c & h & Hnew & Hrun & _ & [gs Hwf] & Hmask & Hsent & Hlen & Hmask0 & _).
  exists c0, h1, c, h. split_and!; [done|done| | |].
  - rewrite (sentinels_length _ _ Hsent). lia.
  - apply shardIndex_bound, Hwf.
  - destruct (cache_wf_getShard _ _ _ key Hwf) as (s & _ & Hs & _). eauto.
Qed.

(** ** Misses *)

(** C5: on a well-formed cache, [Get] of a key that has no entry in the
    lookup table of its shard returns (nil, false) and the heap it leaves
    is the heap it started from; [Get] has no access to the shard fields
    (size, table), so nothing of the cache state is altered. *)
Theorem Get_absent_no_effect h c key :
  cache_inv h c →
  lookupTable c key = None →
  Get c key h = Some ((AnyNil, false), h).
Proof.
  intros [gs Hwf] Hmiss.
  destruct (cache_wf_getShard _ _ _ key Hwf) as (s & _ & Hs & _).
  rewrite (lookupTable_getShard _ _ _ Hs) in Hmiss.
  by apply (Get_miss _ _ _ s).
Qed.

Lemma Get_absent_no_effect_witness :
  cache_inv demo_state.2 demo_state.1 ∧
  lookupTable demo_state.1 "noneexistent" = None ∧
  Get demo_state.1 "noneexistent" demo_state.2
    = Some ((AnyNil, false), demo_state.2).
Proof.
  split_and!.
  - apply state_after_inv.
  - vm_compute. reflexivity.
  - apply Get_absent_no_effect.
    + apply state_after_inv.
    + vm_compute. reflexivity.
Defined.

(** ** Clear *)

Lemma Size_zero c : Forall (λ s, Shard.size s = 0) (shards c) → Size c = 0.
Proof.
  unfold Size. induction 1 as [|s ss Hs _ IH]; [done|].
  simpl. by rewrite Hs.
Qed.

Lemma shard_wf_emptied h s g :
  shard_wf h s (emptied g) → realNodes h s = Some [] ∧ sentinels_linked h s.
Proof.
  intros Hwf. split; [by apply (shard_wf_realNodes _ _ _ Hwf)|].
  destruct Hwf as [Hhd Htl _ Hl _ _].
  exists (lay_head g), (lay_tail g). split_and!; [done|done|apply Hl..].
Qed.

(** C7: on a well-formed cache (every reachable state is one), [Clear]
    runs to completion; afterwards [Size] is 0, [Get] of any key returns
    (nil, false), and in every shard the lookup table is empty and the
    recency list consists of the two sentinels linked to each other. *)
Theorem Clear_empties h c :
  cache_inv h c →
  ∃ c' h',
    Clear c h = Some (c', h') ∧
    cache_inv h' c' ∧
    Size c' = 0 ∧
    (∀ key, Get c' key h' = Some ((AnyNil, false), h')) ∧
    Forall (λ s, Shard.cache s = ∅ ∧ Shard.size s = 0 ∧
                 realNodes h' s = Some [] ∧ sentinels_linked h' s) (shards c').
Proof.
  intros [gs Hwf].
  destruct (Clear_wf _ _ _ Hwf) as (h' & Hrun & Hwf' & _).
  set (c' := mkLRUCache (cleared <$> shards c) (shardMask c)) in *.
  assert (Hall : Forall (λ s, Shard.cache s = ∅ ∧ Shard.size s = 0 ∧
                   realNodes h' s = Some [] ∧ sentinels_linked h' s) (shards c')).
  { apply Forall_forall. intros s' Hs'.
    apply list_elem_of_lookup in Hs' as [i Hi].
    destruct (cache_wf_lookup _ _ _ _ _ Hwf' Hi) as (g' & Hg' & Hswf).
    rewrite list_lookup_fmap in Hg'.
    destruct (gs !! i) as [g|]; [|done]. injection Hg' as <-.
    simpl in Hi. rewrite list_lookup_fmap in Hi.
    destruct (shards c !! i) as [s|]; [|done]. injection Hi as <-.
    split_and!; [done|done|by eapply shard_wf_emptied..]. }
  exists c', h'. split_and!; [done|by eexists| | |done].
  - apply Size_zero. eapply Forall_impl; [exact Hall|]. by intros s (_ & ? & _).
  - intros key.
    destruct (cache_wf_getShard _ _ _ key Hwf') as (s & _ & Hs & _).
    apply (Get_miss _ _ _ _ Hs).
    assert (Hin : s ∈ shards c') by (by eapply list_elem_of_lookup_2).
    rewrite Forall_forall in Hall. destruct (Hall s Hin) as (-> & _).
    apply lookup_empty.
Qed.

Lemma Clear_empties_witness :
  cache_inv demo_state.2 demo_state.1 ∧
  ∃ c' h',
    Clear demo_state.1 demo_state.2 = Some (c', h') ∧
    cache_inv h' c' ∧
    Size c' = 0 ∧
    (∀ key, Get c' key h' = Some ((AnyNil, false), h')) ∧
    Forall (λ s, Shard.cache s = ∅ ∧ Shard.size s = 0 ∧
                 realNodes h' s = Some [] ∧ sentinels_linked h' s) (shards c').
Proof.
  split.
  - apply state_after_inv.
  - apply Clear_empties, state_after_inv.
Defined.

(** ** Overwriting *)

Lemma shard_wf_unique_key h s g key x :
  shard_wf h s g → Shard.cache s !! key = Some (Some x) →
  x ∈ lay_nodes g ∧ keyOf h x = Some key ∧
  ∀ y, y ∈ lay_nodes g → keyOf h y = Some key → y = x.
Proof.
  intros Hwf Hx. pose proof (wf_cache _ _ _ Hwf) as Hc.
  destruct (proj1 (Hc key (Some x)) Hx) as (x' & [= <-] & Hin & Hk).
  split_and!; [done|done|]. intros y Hy Hky.
  assert (Shard.cache s !! key = Some (Some y)) as Hy'; [|congruence].
  apply Hc. eauto.
Qed.

(** After a put, the key is resident in its shard. *)
Lemma Put_resident h c key value :
  cache_inv h c →
  ∃ c1 h1 gs1 s1 x,
    Put c key value h = Some (c1, h1) ∧
    cache_wf h1 c1 gs1 ∧
    getShard c1 key = Some s1 ∧
    Shard.cache s1 !! key = Some (Some x) ∧
    valueOf h1 x = Some value.
Proof.
  intros [gs Hwf].
  destruct (cache_wf_getShard _ _ _ key Hwf) as (s & g & Hs & Hg & Hswf).
  destruct (Shard.cache s !! key) as [p|] eqn:Hp.
  - destruct (shard_wf_resident _ _ _ _ _ Hswf Hp)
      as (x & l1 & l2 & n & -> & Hnodes & Hn & _).
    destruct (Put_hit_wf _ _ _ _ value _ _ _ _ _ Hwf Hs Hg Hp Hnodes)
      as (h1 & Hrun & Hwf1 & Hv & _).
    by eexists c, h1, _, s, x.
  - destruct (Put_miss_cache_wf _ _ _ _ value _ _ Hwf Hs Hg Hp)
      as (x & h1 & s' & Hrun & Hwf1 & _ & -> & _ & Hv).
    eexists _, h1, _, _, x. split_and!; [done|done| | |done].
    + unfold getShard. rewrite shardIndex_with_shard. simpl.
      apply list_lookup_insert_eq. by eapply lookup_lt_Some.
    + simpl. apply lookup_insert_eq.
Qed.

(** C6: on a well-formed cache, put(k, v1) followed by put(k, v2) both run
    to completion; the second returns the cache it was given (no shard's
    size field changes, so the total size is unchanged, and the recency
    list of k's shard keeps its length); afterwards the lookup table of k's
    shard maps k to a node that is first in the recency list, carries key
    k and value v2, and is the only node of the list with key k. *)
Theorem Put_overwrite h c key v1 v2 :
  cache_inv h c →
  ∃ c1 h1 c2 h2 s x l,
    Put c key v1 h = Some (c1, h1) ∧
    Put c1 key v2 h1 = Some (c2, h2) ∧
    c2 = c1 ∧ Size c2 = Size c1 ∧
    cache_inv h2 c2 ∧
    getShard c2 key = Some s ∧
    Shard.cache s !! key = Some (Some x) ∧
    realNodes h2 s = Some (x :: l) ∧
    keyOf h2 x = Some key ∧ valueOf h2 x = Some v2 ∧
    (∀ y, y ∈ l → keyOf h2 y ≠ Some key) ∧
    length <$> realNodes h1 s = Some (S (length l)).
Proof.
  intros Hinv.
  destruct (Put_resident h c key v1 Hinv)
    as (c1 & h1 & gs1 & s & x & Hrun1 & Hwf1 & Hs & Hx & _).
  destruct (cache_wf_getShard _ _ _ key Hwf1) as (s' & g & Hs' & Hg & Hswf).
  assert (s' = s) as -> by congruence.
  destruct (shard_wf_resident _ _ _ _ _ Hswf Hx)
    as (x' & l1 & l2 & n & [= <-] & Hnodes & Hn & _).
  destruct (Put_hit_wf _ _ _ _ v2 _ _ _ _ _ Hwf1 Hs Hg Hx Hnodes)
    as (h2 & Hrun2 & Hwf2 & Hv & _).
  destruct (cache_wf_lookup _ _ _ _ _ Hwf2 Hs) as (g2 & Hg2 & Hswf2).
  rewrite list_lookup_insert_eq in Hg2 by (by eapply lookup_lt_Some).
  injection Hg2 as <-.
  destruct (shard_wf_unique_key _ _ _ _ _ Hswf2 Hx) as (_ & Hk & Huniq).
  exists c1, h1, c1, h2, s, x, (l1 ++ l2).
  split_and!; [done|done|done|done|by eexists|done|done| |done|done| |].
  - apply (shard_wf_realNodes _ _ _ Hswf2).
  - intros y Hy Hky.
    assert (y = x) as -> by (apply Huniq; [by right|done]).
    pose proof (wf_nodup _ _ _ Hswf2) as Hnd. unfold footprint in Hnd. simpl in Hnd.
    apply NoDup_cons in Hnd as [_ Hnd]. apply NoDup_cons in Hnd as [Hnin _].
    apply Hnin. apply elem_of_app. by left.
  - rewrite (shard_wf_realNodes _ _ _ Hswf), Hnodes. simpl.
    rewrite !length_app. simpl. f_equal. lia.
Qed.

Lemma Put_overwrite_witness :
  cache_inv demo_state.2 demo_state.1 ∧
  ∃ c1 h1 c2 h2 s x l,
    Put demo_state.1 "user:2" (AnyString "Ayo") demo_state.2 = Some (c1, h1) ∧
    Put c1 "user:2" (AnyInt 42) h1 = Some (c2, h2) ∧
    c2 = c1 ∧ Size c2 = Size c1 ∧
    cache_inv h2 c2 ∧
    getShard c2 "user:2" = Some s ∧
    Shard.cache s !! "user:2" = Some (Some x) ∧
    realNodes h2 s = Some (x :: l) ∧
    keyOf h2 x = Some "user:2"%string ∧ valueOf h2 x = Some (AnyInt 42) ∧
    (∀ y, y ∈ l → keyOf h2 y ≠ Some "user:2"%string) ∧
    length <$> realNodes h1 s = Some (S (length l)).
Proof.
  split.
  - apply state_after_inv.
  - apply Put_overwrite, state_after_inv.
Defined.

(** ** The three counts *)

Lemma length_removelast_le {A} (l : list A) : (length (removelast l) ≤ length l)%nat.
Proof.
  destruct l as [|x l _] using rev_ind; [done|].
  rewrite removelast_last, length_app. lia.
Qed.

(** C8: in a well-formed cache whose shards each have their [size] field
    equal to the number of entries of the lookup table and to the number
    of real nodes of the recency list, every operation runs to completion
    and leaves a well-formed cache with the same triple equality in every
    shard: [Get], [Put] (provided the shard's size is below the largest
    [int], so that the increment does not wrap), [evictLRU] on any shard,
    and [Clear]. *)
Theorem counts_agree_preserved h c :
  cache_inv h c →
  Forall (counts_agree h) (shards c) →
  (∀ key, ∃ r h',
      Get c key h = Some (r, h') ∧
      cache_inv h' c ∧ Forall (counts_agree h') (shards c)) ∧
  (∀ key value,
      (∀ s, getShard c key = Some s → Shard.size s < max_int) →
      ∃ c' h',
        Put c key value h = Some (c', h') ∧
        cache_inv h' c' ∧ Forall (counts_agree h') (shards c')) ∧
  (∀ i s, shards c !! i = Some s →
      ∃ s' h',
        evictLRU s h = Some (s', h') ∧
        cache_inv h' (with_shard i s' c) ∧
        Forall (counts_agree h') (shards (with_shard i s' c))) ∧
  (∃ c' h',
      Clear c h = Some (c', h') ∧
      cache_inv h' c' ∧ Forall (counts_agree h') (shards c')).
Proof.
  intros [gs Hwf] Hcounts.
  pose proof (bounds_from_counts _ _ _ Hwf Hcounts) as Hb.
  assert (Hbi : ∀ i g, gs !! i = Some g → Z.of_nat (length (lay_nodes g)) ≤ max_int).
  { intros i g Hg. rewrite Forall_forall in Hb. apply Hb.
    by eapply list_elem_of_lookup_2. }
  split_and!.
  - intros key.
    destruct (cache_wf_getShard _ _ _ key Hwf) as (s & g & Hs & Hg & Hswf).
    destruct (Shard.cache s !! key) as [p|] eqn:Hp.
    + destruct (shard_wf_resident _ _ _ _ _ Hswf Hp)
        as (x & l1 & l2 & n & -> & Hnodes & Hn & _).
      destruct (Get_hit_wf _ _ _ _ _ _ _ _ _ _ Hwf Hs Hg Hp Hnodes Hn)
        as (h' & Hrun & Hwf' & _).
      eexists _, h'. split_and!; [done|by eexists|].
      eapply counts_from_wf; [done|]. apply Forall_insert; [done|]. simpl.
      specialize (Hbi _ _ Hg). rewrite Hnodes in Hbi.
      rewrite !length_app in *. simpl in *. lia.
    + eexists _, h. split_and!; [by eapply Get_miss|by eexists|done].
  - intros key value Hsize.
    destruct (cache_wf_getShard _ _ _ key Hwf) as (s & g & Hs & Hg & Hswf).
    destruct (Shard.cache s !! key) as [p|] eqn:Hp.
    + destruct (shard_wf_resident _ _ _ _ _ Hswf Hp)
        as (x & l1 & l2 & n & -> & Hnodes & Hn & _).
      destruct (Put_hit_wf _ _ _ _ value _ _ _ _ _ Hwf Hs Hg Hp Hnodes)
        as (h' & Hrun & Hwf' & _).
      exists c, h'. split_and!; [done|by eexists|].
      eapply counts_from_wf; [done|]. apply Forall_insert; [done|]. simpl.
      specialize (Hbi _ _ Hg). rewrite Hnodes in Hbi.
      rewrite !length_app in *. simpl in *. lia.
    + destruct (Put_miss_cache_wf _ _ _ _ value _ _ Hwf Hs Hg Hp)
        as (x & h' & s' & Hrun & Hwf' & _).
      eexists _, h'. split_and!; [done|by eexists|].
      eapply counts_from_wf; [done|]. apply Forall_insert; [done|]. simpl.
      specialize (Hbi _ _ Hg). specialize (Hsize s Hs).
      rewrite (wf_size _ _ _ Hswf) in Hsize.
      rewrite wrap_int_small in Hsize by (unfold max_int in *; lia). lia.
  - intros i s Hs.
    destruct (evictLRU_cache_wf _ _ _ _ _ Hwf Hs) as (s' & h' & g & Hrun & Hg & Hwf' & _).
    exists s', h'. split_and!; [done|by eexists|].
    eapply counts_from_wf; [done|]. apply Forall_insert; [done|]. simpl.
    specialize (Hbi _ _ Hg). pose proof (length_removelast_le (lay_nodes g)). lia.
  - destruct (Clear_wf _ _ _ Hwf) as (h' & Hrun & Hwf' & _).
    eexists _, h'. split_and!; [done|by eexists|].
    eapply counts_from_wf; [done|]. apply Forall_fmap, Forall_forall.
    intros g _. simpl. unfold max_int. lia.
Qed.

Lemma counts_agree_preserved_witness :
  cache_inv demo_state.2 demo_state.1 ∧
  Forall (counts_agree demo_state.2) (shards demo_state.1) ∧
  (∀ key, ∃ r h',
      Get demo_state.1 key demo_state.2 = Some (r, h') ∧
      cache_inv h' demo_state.1 ∧
      Forall (counts_agree h') (shards demo_state.1)) ∧
  (∀ key value,
      (∀ s, getShard demo_state.1 key = Some s → Shard.size s < max_int) →
      ∃ c' h',
        Put demo_state.1 key value demo_state.2 = Some (c', h') ∧
        cache_inv h' c' ∧ Forall (counts_agree h') (shards c')) ∧
  (∀ i s, shards demo_state.1 !! i = Some s →
      ∃ s' h',
        evictLRU s demo_state.2 = Some (s', h') ∧
        cache_inv h' (with_shard i s' demo_state.1) ∧
        Forall (counts_agree h') (shards (with_shard i s' demo_state.1))) ∧
  (∃ c' h',
      Clear demo_state.1 demo_state.2 = Some (c', h') ∧
      cache_inv h' c' ∧ Forall (counts_agree h') (shards c')).
Proof.
  assert (Hinv : cache_inv demo_state.2 demo_state.1) by apply state_after_inv.
  assert (Hcounts : Forall (counts_agree demo_state.2) (shards demo_state.1)).
  { apply (bool_decide_unpack
             (Forall (counts_agree demo_state.2) (shards demo_state.1))).
    vm_compute. exact I. }
  split; [exact Hinv|]. split; [exact Hcounts|].
  exact (counts_agree_preserved _ _ Hinv Hcounts).
Defined.


(** * The shards as recency lists *)

(** ** Entries *)

Lemma entryOf_keyOf h x e :
  entryOf h x = Some e → keyOf h x = Some e.1 ∧ valueOf h x = Some e.2.
Proof.
  unfold entryOf, keyOf, valueOf. destruct (h !! x); [|done]. by intros [= <-].
Qed.

Lemma entryOf_pair h x k v :
  keyOf h x = Some k → valueOf h x = Some v → entryOf h x = Some (k, v).
Proof.
  unfold entryOf, keyOf, valueOf. destruct (h !! x); [|done].
  simpl. by intros [= ->] [= ->].
Qed.

Lemma entryOf_same h h' y :
  keyOf h' y = keyOf h y → valueOf h' y = valueOf h y →
  entryOf h' y = entryOf h y.
Proof.
  unfold keyOf, valueOf, entryOf.
  destruct (h' !! y) as [n'|], (h !! y) as [n|]; simpl; try done.
  intros [= Hk] [= Hv]. by rewrite Hk, Hv.
Qed.

Lemma same_data_entryOf h h' y : same_data h h' → entryOf h' y = entryOf h y.
Proof. intros [_ Hkv]. apply entryOf_same; apply Hkv. Qed.

Lemma entries_same h h' l a :
  entries h l a → (∀ y, y ∈ l → entryOf h' y = entryOf h y) → entries h' l a.
Proof.
  unfold entries. induction 1 as [|x e l a Hx _ IH]; intros Hsame; constructor.
  - rewrite Hsame; [done|by left].
  - apply IH. intros y Hy. apply Hsame. by right.
Qed.

Lemma entries_keys h l a k :
  entries h l a → (∀ y, y ∈ l → keyOf h y ≠ Some k) → Forall (λ e, e.1 ≠ k) a.
Proof.
  unfold entries. induction 1 as [|x e l a Hx _ IH]; intros Hk; constructor.
  - intros <-. apply (Hk x); [by left|]. by apply entryOf_keyOf.
  - apply IH. intros y Hy. apply Hk. by right.
Qed.

Lemma entries_exist h l :
  (∀ x, x ∈ l → is_Some (h !! x)) → ∃ a, entries h l a.
Proof.
  induction l as [|x l IH]; intros Hl.
  - exists []. constructor.
  - destruct (Hl x) as [n Hn]; [by left|].
    destruct IH as [a Ha]; [intros y Hy; apply Hl; by right|].
    exists ((Node.key n, Node.value n) :: a). constructor; [|done].
    unfold entryOf. by rewrite Hn.
Qed.

Lemma entries_inj h l a a' : entries h l a → entries h l a' → a = a'.
Proof.
  unfold entries. intros Ha. revert a'.
  induction Ha as [|x e l a Hx _ IH]; intros a' Ha'.
  - by apply Forall2_nil_inv_l in Ha'.
  - apply Forall2_cons_inv_l in Ha' as (e' & a'' & Hx' & Ha'' & ->).
    f_equal; [congruence|by apply IH].
Qed.

(** ** The reference list *)

Lemma drop_key_id k a : Forall (λ e, e.1 ≠ k) a → drop_key k a = a.
Proof.
  unfold drop_key. induction 1 as [|e a He _ IH]; [done|].
  rewrite filter_cons_True by done. by rewrite IH.
Qed.

Lemma assoc_absent k a : Forall (λ e, e.1 ≠ k) a → assoc k a = None.
Proof.
  induction 1 as [|e a He _ IH]; [done|].
  simpl. by rewrite decide_False.
Qed.

Lemma assoc_middle k v a1 a2 :
  Forall (λ e, e.1 ≠ k) a1 → assoc k (a1 ++ (k, v) :: a2) = Some v.
Proof.
  induction 1 as [|e a He _ IH]; simpl.
  - by rewrite decide_True.
  - by rewrite decide_False.
Qed.

Lemma drop_key_middle k v a1 a2 :
  Forall (λ e, e.1 ≠ k) a1 → Forall (λ e, e.1 ≠ k) a2 →
  drop_key k (a1 ++ (k, v) :: a2) = a1 ++ a2.
Proof.
  intros H1 H2. unfold drop_key. rewrite filter_app, filter_cons_False.
  - fold (drop_key k a1) (drop_key k a2). by rewrite !drop_key_id.
  - simpl. by intros [].
Qed.

Lemma assoc_Some_elem k v a : assoc k a = Some v → (k, v) ∈ a.
Proof.
  induction a as [|[k' v'] a IH]; [done|]. simpl.
  case_decide as Hk; simpl in Hk.
  - intros [= ->]. subst. by left.
  - intros Ha. right. by apply IH.
Qed.

(** ** A well-formed shard as a list of entries *)

Lemma contents_wf h s g :
  shard_wf h s g → contents h s = mapM (entryOf h) (lay_nodes g).
Proof. intros Hwf. unfold contents. by rewrite (shard_wf_realNodes _ _ _ Hwf). Qed.

Lemma contents_entries h s g a :
  shard_wf h s g → entries h (lay_nodes g) a → contents h s = Some a.
Proof. intros Hwf Ha. rewrite (contents_wf _ _ _ Hwf). by apply mapM_Some. Qed.

Lemma shard_wf_nodes_NoDup h s g : shard_wf h s g → NoDup (lay_nodes g).
Proof.
  intros Hwf. pose proof (wf_nodup _ _ _ Hwf) as Hnd. unfold footprint in Hnd.
  apply NoDup_cons in Hnd as [_ Hnd]. by apply NoDup_app in Hnd as [? _].
Qed.

(** The entries around a resident key: its own entry is the only one with
    that key. *)
Lemma shard_wf_split h s g key x l1 l2 a :
  shard_wf h s g →
  Shard.cache s !! key = Some (Some x) →
  lay_nodes g = l1 ++ x :: l2 →
  entries h (lay_nodes g) a →
  ∃ v a1 a2,
    a = a1 ++ (key, v) :: a2 ∧
    entries h l1 a1 ∧ entries h l2 a2 ∧ valueOf h x = Some v ∧
    Forall (λ e, e.1 ≠ key) a1 ∧ Forall (λ e, e.1 ≠ key) a2.
Proof.
  intros Hwf Hx Hnodes Ha.
  destruct (shard_wf_unique_key _ _ _ _ _ Hwf Hx) as (_ & Hk & Huniq).
  pose proof (shard_wf_nodes_NoDup _ _ _ Hwf) as Hnd.
  rewrite Hnodes in Ha, Hnd, Huniq. unfold entries in Ha.
  apply Forall2_app_inv_l in Ha as (a1 & a' & Ha1 & Ha' & ->).
  apply Forall2_cons_inv_l in Ha' as ([k v] & a2 & Hxe & Ha2 & ->).
  destruct (entryOf_keyOf _ _ _ Hxe) as [Hk' Hv]. simpl in Hk', Hv.
  assert (k = key) as -> by congruence.
  apply NoDup_app in Hnd as (_ & Hl1 & Hnd). apply NoDup_cons in Hnd as [Hl2 _].
  exists v, a1, a2. split_and!; [done|done|done|done|..].
  - eapply entries_keys; [exact Ha1|]. intros y Hy Hky.
    assert (y = x) as -> by (apply Huniq; [apply elem_of_app; by left|done]).
    apply (Hl1 x Hy). by left.
  - eapply entries_keys; [exact Ha2|]. intros y Hy Hky.
    assert (y = x) as ->
      by (apply Huniq; [apply elem_of_app; right; by right|done]).
    done.
Qed.

Lemma shard_wf_absent h s g key a :
  shard_wf h s g →
  Shard.cache s !! key = None →
  entries h (lay_nodes g) a →
  Forall (λ e, e.1 ≠ key) a.
Proof.
  intros Hwf Hmiss Ha. eapply entries_keys; [exact Ha|].
  intros y Hy Hky.
  assert (Shard.cache s !! key = Some (Some y)) as Hin; [|congruence].
  apply (wf_cache _ _ _ Hwf). eauto.
Qed.


(** ** The calls on the entries *)

(** A put of a new key leaves the entries of the cells already allocated
    as they were. *)
Lemma Put_miss_entries h c gs key value s g :
  cache_wf h c gs →
  getShard c key = Some s → gs !! shardIndex c key = Some g →
  Shard.cache s !! key = None →
  ∃ x h' s',
    Put c key value h = Some (with_shard (shardIndex c key) s' c, h') ∧
    cache_wf h' (with_shard (shardIndex c key) s' c)
      (<[shardIndex c key := Layout (lay_head g) (lay_tail g) (x :: lay_nodes g)]> gs) ∧
    entryOf h' x = Some (key, value) ∧
    (∀ y, is_Some (h !! y) → entryOf h' y = entryOf h y).
Proof.
  intros Hwf Hs Hg Hmiss.
  pose proof (Forall2_lookup_lr _ _ _ _ _ _ (cwf_shards _ _ _ Hwf) Hs Hg) as Hswf.
  destruct (Put_miss_cache_wf _ _ _ _ value _ _ Hwf Hs Hg Hmiss)
    as (x & h' & s' & Hrun & Hwf' & Hx & -> & Hk & Hv).
  eexists x, h', _. split_and!; [done|done|by apply entryOf_pair|].
  destruct (Put_miss_wf _ _ _ key value Hswf Hmiss)
    as (x2 & h2 & Hx2 & Hnew2 & Hadd2 & _ & Hout2 & _).
  assert (Hrun2 : ∃ c2, Put c key value h = Some (c2, h2)).
  { unfold Put. rewrite Hs. erewrite bind_Some by reflexivity. rewrite Hmiss.
    erewrite bind_Some by done. erewrite bind_Some by done.
    destruct (_ >? _); eexists; reflexivity. }
  destruct Hrun2 as [c2 Hrun2]. rewrite Hrun in Hrun2. injection Hrun2 as _ <-.
  set (h0 := <[x2 := Node.mk key value None None]> h) in *.
  assert (Hxfp : x2 ∉ footprint g).
  { intros Hin. destruct (shard_wf_allocated _ _ _ _ Hswf Hin). congruence. }
  assert (Hswf0 : shard_wf h0 s g).
  { eapply shard_wf_frame; [done|]. intros y Hy.
    unfold h0. rewrite lookup_insert_ne; [done|]. by intros <-. }
  destruct (addToFront_footprint h0
              (Shard.with_cache (<[key := Some x2]> (Shard.cache s)) s)
              (lay_head g) (lay_tail g) (lay_nodes g) x2)
    as (h'' & Hadd & _ & _ & Hdata);
    [apply Hswf0|apply Hswf0|apply Hswf0|done| |].
  { unfold h0. rewrite lookup_insert_eq. eauto. }
  rewrite Hadd2 in Hadd. injection Hadd as <-.
  intros y [n Hy]. rewrite (same_data_entryOf _ _ _ Hdata).
  unfold entryOf, h0. rewrite lookup_insert_ne; [done|].
  intros <-. congruence.
Qed.

Lemma holds_entries h c f gs j g :
  holds h c f → cache_wf h c gs → gs !! j = Some g → entries h (lay_nodes g) (f j).
Proof.
  intros (gs' & Hwf' & Hf) Hwf Hg.
  destruct (Forall2_lookup_r _ _ _ _ _ (cwf_shards _ _ _ Hwf) Hg) as (s & Hs & Hswf).
  destruct (cache_wf_lookup _ _ _ _ _ Hwf' Hs) as (g' & Hg' & Hswf').
  pose proof (Hf j g' Hg') as Ha.
  assert (lay_nodes g' = lay_nodes g) as <-; [|done].
  pose proof (shard_wf_realNodes _ _ _ Hswf) as H1.
  pose proof (shard_wf_realNodes _ _ _ Hswf') as H2. congruence.
Qed.

Lemma holds_contents h c f j s :
  holds h c f → shards c !! j = Some s → contents h s = Some (f j).
Proof.
  intros (gs & Hwf & Hf) Hs.
  destruct (cache_wf_lookup _ _ _ _ _ Hwf Hs) as (g & Hg & Hswf).
  eapply contents_entries; [done|]. by apply Hf.
Qed.

(** Every well-formed cache holds some lists. *)
Lemma holds_exists h c : cache_inv h c → ∃ f, holds h c f.
Proof.
  intros [gs Hwf].
  exists (λ j, match gs !! j with
               | Some g => default [] (mapM (entryOf h) (lay_nodes g))
               | None => []
               end).
  exists gs. split; [done|]. intros j g Hg. rewrite Hg.
  destruct (Forall2_lookup_r _ _ _ _ _ (cwf_shards _ _ _ Hwf) Hg) as (s & Hs & Hswf).
  destruct (entries_exist h (lay_nodes g)) as [a Ha].
  { intros x Hx. eapply shard_wf_allocated; [done|]. by apply footprint_nodes. }
  pose proof Ha as Ha'. apply mapM_Some in Ha'. by rewrite Ha'.
Qed.

Lemma holds_ext h c f f' : holds h c f → (∀ j, f j = f' j) → holds h c f'.
Proof.
  intros (gs & Hwf & Hf) Heq. exists gs. split; [done|].
  intros j g Hg. rewrite <- Heq. by apply Hf.
Qed.

(** Updating the layout of one shard. *)
Lemma holds_update h h' c c' gs i g' (f f' : nat → list (string * any)) :
  cache_wf h c gs →
  (∀ j g, gs !! j = Some g → entries h (lay_nodes g) (f j)) →
  cache_wf h' c' (<[i := g']> gs) →
  (i < length gs)%nat →
  entries h' (lay_nodes g') (f' i) →
  (∀ j, j ≠ i → f' j = f j) →
  (∀ j g y, j ≠ i → gs !! j = Some g → y ∈ lay_nodes g → entryOf h' y = entryOf h y) →
  holds h' c' f'.
Proof.
  intros Hwf Hf Hwf' Hi Hnew Hother Hsame.
  exists (<[i := g']> gs). split; [done|]. intros j g Hg.
  destruct (decide (j = i)) as [->|Hji].
  - rewrite list_lookup_insert_eq in Hg by done. by injection Hg as <-.
  - rewrite list_lookup_insert_ne in Hg by done. rewrite Hother by done.
    eapply entries_same; [by apply Hf|]. intros y Hy. by eapply Hsame.
Qed.

Lemma Get_holds h c f key :
  holds h c f →
  ∃ h',
    Get c key h
      = Some (match assoc key (f (shardIndex c key)) with
              | Some v => (v, true)
              | None => (AnyNil, false)
              end, h') ∧
    holds h' c (λ j, ref_step c j (f j) (CallGet key)).
Proof.
  intros Hholds. pose proof Hholds as (gs & Hwf & Hf).
  destruct (cache_wf_getShard _ _ _ key Hwf) as (s & g & Hs & Hg & Hswf).
  pose proof (Hf _ _ Hg) as Ha.
  destruct (Shard.cache s !! key) as [p|] eqn:Hp.
  - destruct (shard_wf_resident _ _ _ _ _ Hswf Hp)
      as (x & l1 & l2 & n & -> & Hnodes & Hn & _).
    destruct (shard_wf_split _ _ _ _ _ _ _ _ Hswf Hp Hnodes Ha)
      as (v & a1 & a2 & Hsplit & Ha1 & Ha2 & Hv & Hk1 & Hk2).
    destruct (Get_hit_wf _ _ _ _ _ _ _ _ _ _ Hwf Hs Hg Hp Hnodes Hn)
      as (h' & Hrun & Hwf' & Hdata).
    assert (Node.value n = v) as Hnv.
    { unfold valueOf in Hv. rewrite Hn in Hv. by injection Hv. }
    exists h'. rewrite Hsplit, (assoc_middle _ _ _ _ Hk1). split; [by rewrite <- Hnv|].
    eapply (holds_update h h' c c gs); [done|done|done|by eapply lookup_lt_Some| | |].
    + simpl. rewrite decide_True by done. unfold ref_get.
      rewrite Hsplit, (assoc_middle _ _ _ _ Hk1), (drop_key_middle _ _ _ _ Hk1 Hk2).
      constructor.
      * rewrite (same_data_entryOf _ _ _ Hdata). apply entryOf_pair; [|done].
        unfold keyOf. rewrite Hn. simpl. f_equal.
        destruct (shard_wf_unique_key _ _ _ _ _ Hswf Hp) as (_ & Hk & _).
        unfold keyOf in Hk. rewrite Hn in Hk. by injection Hk.
      * apply Forall2_app.
        -- eapply entries_same; [exact Ha1|]. intros y _. by apply same_data_entryOf.
        -- eapply entries_same; [exact Ha2|]. intros y _. by apply same_data_entryOf.
    + intros j Hj. simpl. by rewrite decide_False.
    + intros j gj y _ _ _. by apply same_data_entryOf.
  - exists h. pose proof (shard_wf_absent _ _ _ _ _ Hswf Hp Ha) as Habs.
    rewrite (assoc_absent _ _ Habs). split; [by eapply Get_miss|].
    eapply holds_ext; [done|]. intros j. simpl.
    case_decide as Hj; [|done]. subst j. unfold ref_get.
    by rewrite (assoc_absent _ _ Habs).
Qed.

Lemma Put_holds h c f key value :
  holds h c f →
  ∃ c' h',
    Put c key value h = Some (c', h') ∧
    holds h' c' (λ j, ref_step c j (f j) (CallPut key value)) ∧
    shardMask c' = shardMask c ∧ sentinels c' = sentinels c.
Proof.
  intros Hholds. pose proof Hholds as (gs & Hwf & Hf).
  destruct (cache_wf_getShard _ _ _ key Hwf) as (s & g & Hs & Hg & Hswf).
  pose proof (Hf _ _ Hg) as Ha.
  destruct (Shard.cache s !! key) as [p|] eqn:Hp.
  - destruct (shard_wf_resident _ _ _ _ _ Hswf Hp)
      as (x & l1 & l2 & n & -> & Hnodes & Hn & Hkey).
    destruct (shard_wf_split _ _ _ _ _ _ _ _ Hswf Hp Hnodes Ha)
      as (v & a1 & a2 & Hsplit & Ha1 & Ha2 & Hv & Hk1 & Hk2).
    destruct (Put_hit_wf _ _ _ _ value _ _ _ _ _ Hwf Hs Hg Hp Hnodes)
      as (h' & Hrun & Hwf' & Hv' & Hkeys & Hvals).
    pose proof (shard_wf_nodes_NoDup _ _ _ Hswf) as Hnd. rewrite Hnodes in Hnd.
    apply NoDup_app in Hnd as (_ & Hl1 & Hnd). apply NoDup_cons in Hnd as [Hl2 _].
    assert (Hother : ∀ y, y ≠ x → entryOf h' y = entryOf h y)
      by (intros y Hy; apply entryOf_same; [apply Hkeys|by apply Hvals]).
    exists c, h'. split_and!; [done| |done|done].
    eapply (holds_update h h' c c gs); [done|done|done|by eapply lookup_lt_Some| | |].
    + simpl. rewrite decide_True by done. unfold ref_put.
      rewrite Hsplit, (drop_key_middle _ _ _ _ Hk1 Hk2).
      constructor.
      * apply entryOf_pair; [|done]. rewrite Hkeys.
        unfold keyOf. rewrite Hn. simpl. by f_equal.
      * apply Forall2_app.
        -- eapply entries_same; [exact Ha1|]. intros y Hy. apply Hother.
           intros ->. apply (Hl1 x Hy). by left.
        -- eapply entries_same; [exact Ha2|]. intros y Hy. apply Hother.
           by intros ->.
    + intros j Hj. simpl. by rewrite decide_False.
    + intros j gj y Hj Hgj Hy. apply Hother. intros ->.
      eapply (cwf_disjoint _ _ _ Hwf j (shardIndex c key) gj g x);
        [done|done|done|by apply footprint_nodes|].
      apply footprint_nodes. rewrite Hnodes. apply elem_of_app. right. by left.
  - destruct (Put_miss_entries _ _ _ _ value _ _ Hwf Hs Hg Hp)
      as (x & h' & s' & Hrun & Hwf' & Hx & Hsame).
    pose proof (shard_wf_absent _ _ _ _ _ Hswf Hp Ha) as Habs.
    assert (Hsent : sentinels (with_shard (shardIndex c key) s' c) = sentinels c).
    { destruct (step_inv h c (CallPut key value)) as (c1 & h1 & Hstep & _ & _ & Hsent);
        [by eexists|].
      simpl in Hstep. rewrite Hrun in Hstep. by injection Hstep as <- _. }
    eexists _, h'. split_and!; [done| |done|done].
    eapply (holds_update h h' c _ gs); [done|done|done|by eapply lookup_lt_Some| | |].
    + simpl. rewrite decide_True by done. unfold ref_put.
      rewrite (drop_key_id _ _ Habs). constructor; [done|].
      eapply entries_same; [done|]. intros y Hy. apply Hsame.
      eapply shard_wf_allocated; [done|]. by apply footprint_nodes.
    + intros j Hj. simpl. by rewrite decide_False.
    + intros j gj y Hj Hgj Hy. apply Hsame.
      destruct (Forall2_lookup_r _ _ _ _ _ (cwf_shards _ _ _ Hwf) Hgj)
        as (sj & _ & Hswfj).
      eapply shard_wf_allocated; [done|]. by apply footprint_nodes.
Qed.

Lemma Clear_holds h c f :
  holds h c f →
  ∃ c' h',
    Clear c h = Some (c', h') ∧ holds h' c' (λ _, []) ∧
    shardMask c' = shardMask c ∧ sentinels c' = sentinels c.
Proof.
  intros (gs & Hwf & _).
  destruct (Clear_wf _ _ _ Hwf) as (h' & Hrun & Hwf' & _).
  eexists _, h'. split_and!; [done| |done|apply sentinels_cleared].
  eexists. split; [done|]. intros j g Hg. rewrite list_lookup_fmap in Hg.
  destruct (gs !! j); [|done]. injection Hg as <-. constructor.
Qed.

(** One call of the program is one step of the reference list of every
    shard. *)
Lemma step_holds h c f o :
  holds h c f →
  ∃ c' h',
    step c o h = Some (c', h') ∧
    holds h' c' (λ j, ref_step c j (f j) o) ∧
    shardMask c' = shardMask c ∧ sentinels c' = sentinels c.
Proof.
  intros Hholds. destruct o as [key|key value|]; simpl.
  - destruct (Get_holds h c f key Hholds) as (h' & Hrun & Hholds').
    exists c, h'. split_and!; [|done..]. by erewrite bind_Some by done.
  - by apply Put_holds.
  - by apply (Clear_holds h c f).
Qed.

Lemma ref_step_mask c c' j a o :
  shardMask c' = shardMask c → ref_step c' j a o = ref_step c j a o.
Proof.
  intros Hm. destruct o; simpl; [| |done]; unfold shardIndex, hash; by rewrite Hm.
Qed.

Lemma run_holds os : ∀ h c f,
  holds h c f →
  ∃ c' h',
    run c os h = Some (c', h') ∧
    holds h' c' (λ j, fold_left (ref_step c j) os (f j)) ∧
    shardMask c' = shardMask c ∧ sentinels c' = sentinels c.
Proof.
  induction os as [|o os IH]; intros h c f Hholds.
  - by exists c, h.
  - destruct (step_holds h c f o Hholds) as (c1 & h1 & Hstep & Hholds1 & Hm1 & Hs1).
    destruct (IH h1 c1 _ Hholds1) as (c' & h' & Hrun & Hholds' & Hm & Hs).
    exists c', h'. split_and!; [| |congruence..].
    + simpl. by erewrite bind_Some by done.
    + eapply holds_ext; [done|]. intros j. simpl.
      generalize (ref_step c j (f j) o). intros a.
      clear -Hm1. revert a. induction os as [|o' os IH]; intros a; [done|].
      simpl. by rewrite IH, (ref_step_mask c c1).
Qed.

Lemma NewLRUCache_holds numCPU capacity h0 :
  ∃ c0 h1,
    NewLRUCache numCPU capacity h0 = Some (c0, h1) ∧ holds h1 c0 (λ _, []).
Proof.
  destruct (NewLRUCache_wf numCPU capacity h0)
    as (c0 & h1 & gs0 & Hnew & Hwf0 & _ & _ & Hall).
  exists c0, h1. split; [done|]. exists gs0. split; [done|].
  intros j g Hg.
  destruct (Forall2_lookup_r _ _ _ _ _ (cwf_shards _ _ _ Hwf0) Hg) as (s & Hs & Hswf).
  assert (lay_nodes g = []) as ->; [|constructor].
  apply length_zero_iff_nil. rewrite <- (shard_wf_table_size _ _ _ Hswf).
  rewrite Forall_forall in Hall.
  destruct (Hall s) as (_ & _ & ->); [by eapply list_elem_of_lookup_2|].
  by rewrite map_size_empty.
Qed.

(** ** Lookups in the reference list *)

Lemma assoc_drop_key_ne k key a : k ≠ key → assoc key (drop_key k a) = assoc key a.
Proof.
  intros Hne. unfold drop_key. induction a as [|e a IH]; [done|].
  destruct (decide (e.1 = k)) as [He|He].
  - rewrite filter_cons_False by (by intros []). simpl.
    rewrite decide_False by congruence. done.
  - rewrite filter_cons_True by done. simpl. by rewrite IH.
Qed.

Lemma assoc_ref_get_ne k key a : k ≠ key → assoc key (ref_get k a) = assoc key a.
Proof.
  intros Hne. unfold ref_get. destruct (assoc k a); [|done].
  simpl. rewrite decide_False by done. by apply assoc_drop_key_ne.
Qed.

Lemma assoc_ref_get_eq key a : assoc key (ref_get key a) = assoc key a.
Proof.
  unfold ref_get. destruct (assoc key a) eqn:Ha; [|done].
  simpl. by rewrite decide_True.
Qed.

Lemma assoc_ref_put_ne k v key a : k ≠ key → assoc key (ref_put k v a) = assoc key a.
Proof.
  intros Hne. unfold ref_put. simpl. rewrite decide_False by done.
  by apply assoc_drop_key_ne.
Qed.

Lemma assoc_ref_put_eq key v a : assoc key (ref_put key v a) = Some v.
Proof. unfold ref_put. simpl. by rewrite decide_True. Qed.

(** What a lookup of [key] in the reference list of its shard gives after
    one more call. *)
Lemma assoc_ref_step c key a o :
  assoc key (ref_step c (shardIndex c key) a o)
  = match o with
    | CallGet _ => assoc key a
    | CallPut k v => if decide (k = key) then Some v else assoc key a
    | CallClear => None
    end.
Proof.
  destruct o as [k|k v|]; simpl; [| |done].
  - case_decide; [|done]. destruct (decide (k = key)) as [->|Hne].
    + apply assoc_ref_get_eq.
    + by apply assoc_ref_get_ne.
  - destruct (decide (k = key)) as [->|Hne].
    + rewrite decide_True by done. apply assoc_ref_put_eq.
    + case_decide; [|done]. by apply assoc_ref_put_ne.
Qed.

Lemma assoc_ref_run c key os : ∀ a,
  assoc key (fold_left (ref_step c (shardIndex c key)) os a)
  = fold_left (last_put_step key) os (assoc key a).
Proof.
  induction os as [|o os IH]; intros a; [done|].
  simpl. rewrite IH, assoc_ref_step. by destruct o.
Qed.



Lemma shardIndex_mask c c' key :
  shardMask c' = shardMask c → shardIndex c' key = shardIndex c key.
Proof. intros Hm. unfold shardIndex, hash. by rewrite Hm. Qed.

(** * Further properties of the program *)

(** ** The cache as a map with recency order *)

(** X1: in the state reached from construction by any sequence of calls,
    the entries of shard [j], most recently used first, are exactly the
    reference list for [j]: every put or successful get of a key routed to
    [j] moves that key to the front, a put sets its value, a clear empties
    the list, and nothing else changes it.  No entry is ever dropped. *)
Theorem run_refines_reference numCPU capacity h0 os :
  ∃ c0 h1 c h,
    NewLRUCache numCPU capacity h0 = Some (c0, h1) ∧
    run c0 os h1 = Some (c, h) ∧
    ∀ j s, shards c !! j = Some s → contents h s = Some (ref_run c0 j os).
Proof.
  destruct (NewLRUCache_holds numCPU capacity h0) as (c0 & h1 & Hnew & Hholds0).
  destruct (run_holds os h1 c0 _ Hholds0) as (c & h & Hrun & Hholds & _).
  exists c0, h1, c, h. split_and!; [done|done|].
  intros j s Hs. by apply (holds_contents _ _ _ _ _ Hholds Hs).
Qed.

(** X2: after construction and any sequence of calls, [Get] of a key
    returns the value of the latest [Put] of that key since the latest
    [Clear], with found = true, and (nil, false) when there is none. *)
Theorem Get_returns_last_put numCPU capacity h0 os key :
  ∃ c0 h1 c h h',
    NewLRUCache numCPU capacity h0 = Some (c0, h1) ∧
    run c0 os h1 = Some (c, h) ∧
    Get c key h
      = Some (match last_put key os with
              | Some v => (v, true)
              | None => (AnyNil, false)
              end, h').
Proof.
  destruct (NewLRUCache_holds numCPU capacity h0) as (c0 & h1 & Hnew & Hholds0).
  destruct (run_holds os h1 c0 _ Hholds0) as (c & h & Hrun & Hholds & Hm & _).
  destruct (Get_holds h c _ key Hholds) as (h' & Hget & _).
  exists c0, h1, c, h, h'. split_and!; [done|done|].
  rewrite Hget. rewrite (shardIndex_mask _ _ _ Hm), assoc_ref_run. done.
Qed.



(** X5: on a well-formed cache, a [Put] followed by a [Get] of the same
    key returns the value put, with found = true. *)
Theorem Put_then_Get h c key value :
  cache_inv h c →
  ∃ c' h' h'',
    Put c key value h = Some (c', h') ∧
    Get c' key h' = Some ((value, true), h'').
Proof.
  intros Hinv. destruct (holds_exists h c Hinv) as [f Hholds].
  destruct (Put_holds h c f key value Hholds) as (c' & h' & Hput & Hholds' & Hm & _).
  destruct (Get_holds h' c' _ key Hholds') as (h'' & Hget & _).
  exists c', h', h''. split; [done|]. rewrite Hget.
  rewrite (shardIndex_mask _ _ _ Hm). simpl. rewrite decide_True by done.
  by rewrite assoc_ref_put_eq.
Qed.

(** X6: on a well-formed cache, a call that is neither a [Clear] nor a
    [Put] of [key] does not change what [Get] of [key] returns: gets and
    puts of other keys, in the same shard or not, never remove or alter
    an entry. *)
Theorem other_calls_preserve_lookup h c o key :
  cache_inv h c →
  o ≠ CallClear →
  key ∉ put_keys [o] →
  ∃ r h1 c' h' h2,
    Get c key h = Some (r, h1) ∧
    step c o h = Some (c', h') ∧
    Get c' key h' = Some (r, h2).
Proof.
  intros Hinv Hclear Hput. destruct (holds_exists h c Hinv) as [f Hholds].
  destruct (Get_holds h c f key Hholds) as (h1 & Hget & _).
  destruct (step_holds h c f o Hholds) as (c' & h' & Hstep & Hholds' & Hm & _).
  destruct (Get_holds h' c' _ key Hholds') as (h2 & Hget' & _).
  eexists _, h1, c', h', h2. split_and!; [done|done|].
  rewrite Hget'. rewrite (shardIndex_mask _ _ _ Hm), assoc_ref_step.
  destruct o as [k|k v|]; [done| |done].
  rewrite decide_False; [done|]. intros ->. apply Hput. by left.
Qed.

(** ** Size and Stats *)

Lemma Size_fold h ss : ∀ gs total,
  Forall2 (shard_wf h) ss gs →
  0 ≤ total →
  total + Z.of_nat (sum_list_with (λ g, length (lay_nodes g)) gs) ≤ max_int →
  fold_left (λ total shard, wrap_int (total + Shard.size shard)) ss total
  = total + Z.of_nat (sum_list_with (λ g, length (lay_nodes g)) gs).
Proof.
  induction ss as [|s ss IH]; intros gs total Hss Ht Hb.
  - apply Forall2_nil_inv_l in Hss as ->. simpl. lia.
  - apply Forall2_cons_inv_l in Hss as (g & gs' & Hs & Hss & ->).
    simpl in *. rewrite (wf_size _ _ _ Hs).
    rewrite (wrap_int_small (Z.of_nat _)) by (unfold max_int in *; lia).
    rewrite wrap_int_small by (unfold max_int in *; lia).
    rewrite (IH gs') by (done || lia). lia.
Qed.

Lemma entryCount_wf h c gs :
  cache_wf h c gs →
  entryCount h c = sum_list_with (λ g, length (lay_nodes g)) gs.
Proof.
  intros [Hss _ _]. unfold entryCount.
  induction Hss as [|s g ss gs' Hs _ IH]; [done|].
  simpl. by rewrite (shard_wf_realNodes _ _ _ Hs), IH.
Qed.

(** X7: on a well-formed cache whose total number of list nodes fits an
    [int], [Size] is that number: the sum of the shards' size fields does
    not wrap and counts every resident entry once. *)
Theorem Size_counts_entries h c :
  cache_inv h c →
  Z.of_nat (entryCount h c) ≤ max_int →
  Size c = Z.of_nat (entryCount h c).
Proof.
  intros [gs Hwf] Hb. rewrite (entryCount_wf _ _ _ Hwf) in *.
  unfold Size. rewrite (Size_fold h _ gs 0); [lia|apply Hwf|lia|lia].
Qed.

Lemma statsLoop_spec ss : ∀ total pre zs,
  length zs = length ss →
  statsLoop (length pre) ss (total, pre ++ zs)
  = (fold_left (λ total shard, wrap_int (total + Shard.size shard)) ss total,
     pre ++ (Shard.size <$> ss)).
Proof.
  induction ss as [|s ss IH]; intros total pre zs Hlen.
  - destruct zs; [done|simpl in Hlen; lia].
  - destruct zs as [|z zs]; [simpl in Hlen; lia|].
    simpl. rewrite insert_app_r_alt by lia.
    replace (length pre - length pre)%nat with 0%nat by lia. simpl.
    replace (pre ++ Shard.size s :: zs) with ((pre ++ [Shard.size s]) ++ zs)
      by (by rewrite <- app_assoc).
    replace (S (length pre)) with (length (pre ++ [Shard.size s]))
      by (rewrite length_app; simpl; lia).
    rewrite IH by (simpl in Hlen; lia).
    by rewrite <- app_assoc.
Qed.

(** X8: [Stats] returns a map with exactly three keys: "total_size" is
    what [Size] returns, "num_shards" is the length of the shard slice,
    and "shard_sizes" lists the size field of every shard in slice
    order. *)
Theorem Stats_agrees_with_Size c :
  Stats c
  = <["total_size" := StatInt (Size c)]>
      (<["num_shards" := StatInt (Z.of_nat (length (shards c)))]>
         (<["shard_sizes" := StatInts (Shard.size <$> shards c)]> ∅)).
Proof.
  unfold Stats.
  pose proof (statsLoop_spec (shards c) 0 [] (replicate (length (shards c)) 0)) as H.
  simpl in H. rewrite H by apply length_replicate. done.
Qed.

(** ** evictLRU *)

Lemma entries_removelast h l a :
  entries h l a → entries h (removelast l) (removelast a).
Proof.
  unfold entries. intros Ha.
  destruct l as [|x l _] using rev_ind.
  - apply Forall2_nil_inv_l in Ha as ->. constructor.
  - apply Forall2_app_inv_l in Ha as (a1 & a2 & Ha1 & Ha2 & ->).
    apply Forall2_cons_inv_l in Ha2 as (e & a3 & _ & Ha3 & ->).
    apply Forall2_nil_inv_l in Ha3 as ->.
    by rewrite !removelast_last.
Qed.

Lemma shard_wf_table_keys h s g a k :
  shard_wf h s g → entries h (lay_nodes g) a →
  is_Some (Shard.cache s !! k) ↔ k ∈ a.*1.
Proof.
  intros Hwf Ha. split.
  - intros [p Hp]. apply (wf_cache _ _ _ Hwf) in Hp as (x & _ & Hx & Hk).
    apply list_elem_of_lookup in Hx as [i Hi].
    destruct (Forall2_lookup_l _ _ _ _ _ Ha Hi) as (e & He & Hxe).
    apply list_elem_of_fmap. exists e. split; [|by eapply list_elem_of_lookup_2].
    apply entryOf_keyOf in Hxe as [Hk' _]. congruence.
  - intros (e & -> & He)%list_elem_of_fmap.
    apply list_elem_of_lookup in He as [i Hi].
    destruct (Forall2_lookup_r _ _ _ _ _ Ha Hi) as (x & Hx & Hxe).
    exists (Some x). apply (wf_cache _ _ _ Hwf). exists x.
    split_and!; [done|by eapply list_elem_of_lookup_2|].
    by apply entryOf_keyOf in Hxe as [? _].
Qed.

(** X9: on a well-formed cache, [evictLRU] on any shard removes exactly
    the last entry of that shard's recency list (the least recently used
    one) from the list and from the lookup table and decrements the size;
    on an empty shard it changes nothing.  The capacity and the lists of
    the other shards are unchanged. *)
Theorem evictLRU_removes_last h c i s :
  cache_inv h c →
  shards c !! i = Some s →
  ∃ a s' h',
    contents h s = Some a ∧
    evictLRU s h = Some (s', h') ∧
    cache_inv h' (with_shard i s' c) ∧
    contents h' s' = Some (removelast a) ∧
    (∀ k, is_Some (Shard.cache s' !! k) ↔ k ∈ (removelast a).*1) ∧
    Shard.size s' = wrap_int (Z.of_nat (length (removelast a))) ∧
    Shard.capacity s' = Shard.capacity s ∧
    (a = [] → s' = s ∧ h' = h) ∧
    ∀ j sj, j ≠ i → shards c !! j = Some sj → contents h' sj = contents h sj.
Proof.
  intros Hinv Hs. destruct (holds_exists h c Hinv) as [f Hholds].
  pose proof Hholds as (gs & Hwf & Hf).
  destruct (evictLRU_cache_wf _ _ _ _ _ Hwf Hs) as (s' & h' & g & Hrun & Hg & Hwf' & Hdata).
  pose proof (Forall2_lookup_lr _ _ _ _ _ _ (cwf_shards _ _ _ Hwf) Hs Hg) as Hswf.
  assert (Hs' : shards (with_shard i s' c) !! i = Some s').
  { simpl. apply list_lookup_insert_eq. by eapply lookup_lt_Some. }
  destruct (cache_wf_lookup _ _ _ _ _ Hwf' Hs') as (g' & Hg' & Hswf').
  rewrite list_lookup_insert_eq in Hg' by (by eapply lookup_lt_Some).
  injection Hg' as <-.
  pose proof (Hf _ _ Hg) as Ha.
  assert (Ha' : entries h' (removelast (lay_nodes g)) (removelast (f i))).
  { apply entries_removelast. eapply entries_same; [done|].
    intros y _. by apply same_data_entryOf. }
  exists (f i), s', h'.
  split_and!; [by eapply contents_entries|done|by eexists|
               by eapply contents_entries| | | | |].
  - intros k. by apply (shard_wf_table_keys _ _ _ _ _ Hswf' Ha').
  - rewrite (wf_size _ _ _ Hswf'). simpl.
    by rewrite <- (Forall2_length _ _ _ Ha').
  - destruct (evictLRU_wf _ _ _ Hswf) as (s2 & h2 & Hrun2 & _ & _ & _ & Hcap).
    rewrite Hrun in Hrun2. by injection Hrun2 as <- _.
  - intros Hnil. rewrite Hnil in Ha. apply Forall2_nil_inv_r in Ha.
    destruct (Forall2_lookup_lr _ _ _ _ _ _ (cwf_shards _ _ _ Hwf) Hs Hg)
      as [Hhd Htl _ Hl _ _].
    unfold footprint in Hl. rewrite Ha in Hl. destruct Hl as (_ & Hp & _).
    apply prevOf_Some in Hp as (ntl & Hntl & Hprev).
    unfold evictLRU in Hrun. rewrite Htl in Hrun.
    erewrite bind_Some in Hrun by (by apply load_Some).
    rewrite Hprev, Hhd in Hrun. rewrite decide_False in Hrun by (by intros []).
    by injection Hrun as <- <-.
  - intros j sj Hj Hsj.
    destruct (cache_wf_lookup _ _ _ _ _ Hwf Hsj) as (gj & Hgj & Hswfj).
    assert (Hsj' : shards (with_shard i s' c) !! j = Some sj)
      by (simpl; by rewrite list_lookup_insert_ne).
    destruct (cache_wf_lookup _ _ _ _ _ Hwf' Hsj') as (gj' & Hgj' & Hswfj').
    rewrite list_lookup_insert_ne in Hgj' by done.
    assert (gj' = gj) as -> by congruence.
    rewrite (contents_wf _ _ _ Hswfj), (contents_wf _ _ _ Hswfj').
    destruct (entries_exist h (lay_nodes gj)) as [aj Haj].
    { intros x Hx. eapply shard_wf_allocated; [done|]. by apply footprint_nodes. }
    pose proof Haj as Haj'. apply mapM_Some in Haj'. rewrite Haj'.
    apply mapM_Some. eapply entries_same; [done|].
    intros y _. by apply same_data_entryOf.
Qed.

(** ** Clear, twice *)

Lemma clearShard_fixed h s :
  Shard.cache s = ∅ → Shard.size s = 0 → sentinels_linked h s →
  clearShard s h = Some (s, h).
Proof.
  intros Hc Hsz (hd & tl & Hhd & Htl & Hn & Hp).
  apply nextOf_Some in Hn as (nhd & Hnhd & Hnext).
  apply prevOf_Some in Hp as (ntl & Hntl & Hprev).
  unfold clearShard.
  change (Shard.head (Shard.with_cache ∅ s)) with (Shard.head s).
  change (Shard.tail (Shard.with_cache ∅ s)) with (Shard.tail s).
  rewrite Hhd, Htl.
  erewrite bind_Some by (by eapply store_Some).
  rewrite alter_id.
  2: { intros n Hn. assert (n = nhd) as -> by congruence.
       destruct nhd. simpl in *. by subst. }
  erewrite bind_Some by (by eapply store_Some).
  rewrite alter_id.
  2: { intros n Hn. assert (n = ntl) as -> by congruence.
       destruct ntl. simpl in *. by subst. }
  destruct s. simpl in *. by subst.
Qed.

Lemma clearShards_fixed h ss :
  Forall (λ s, Shard.cache s = ∅ ∧ Shard.size s = 0 ∧ sentinels_linked h s) ss →
  clearShards ss h = Some (ss, h).
Proof.
  induction 1 as [|s ss (Hc & Hsz & Hl) _ IH]; [done|].
  simpl. erewrite bind_Some by (by apply clearShard_fixed).
  by erewrite bind_Some by done.
Qed.

(** X10: [Clear] is idempotent: on a well-formed cache, a second [Clear]
    right after the first returns the same cache and leaves the heap as it
    found it. *)
Theorem Clear_idempotent h c :
  cache_inv h c →
  ∃ c1 h1, Clear c h = Some (c1, h1) ∧ Clear c1 h1 = Some (c1, h1).
Proof.
  intros [gs Hwf].
  destruct (Clear_wf _ _ _ Hwf) as (h1 & Hrun & Hwf1 & _).
  eexists _, h1. split; [done|].
  unfold Clear. simpl. erewrite bind_Some; [reflexivity|].
  apply clearShards_fixed, Forall_forall. intros s' Hs'.
  apply list_elem_of_lookup in Hs' as [i Hi].
  destruct (cache_wf_lookup _ _ _ _ _ Hwf1 Hi) as (g' & Hg' & Hswf).
  rewrite list_lookup_fmap in Hg'.
  destruct (gs !! i) as [g|]; [|done]. injection Hg' as <-.
  rewrite list_lookup_fmap in Hi.
  destruct (shards c !! i) as [s|]; [|done]. injection Hi as <-.
  split_and!; [done|done|]. by eapply shard_wf_emptied.
Qed.

(** ** newShard *)

(** X11: on any heap, [newShard] succeeds and returns an empty shard of
    the requested capacity: size 0, empty lookup table, empty recency
    list, and two distinct sentinels, pointing at each other, at
    addresses that were not in use; every cell that was in use is
    unchanged. *)
Theorem newShard_fresh_empty h capacity :
  ∃ s h' hd tl,
    newShard capacity h = Some (s, h') ∧
    Shard.head s = Some hd ∧ Shard.tail s = Some tl ∧ hd ≠ tl ∧
    h !! hd = None ∧ h !! tl = None ∧
    Shard.capacity s = capacity ∧ Shard.size s = 0 ∧ Shard.cache s = ∅ ∧
    contents h' s = Some [] ∧ sentinels_linked h' s ∧
    ∀ y, is_Some (h !! y) → h' !! y = h !! y.
Proof.
  destruct (newShard_wf h capacity) as (h' & hd & tl & Hrun & Hwf & Hhd & Htl & Hout).
  eexists _, h', hd, tl.
  split_and!; [done|done|done| |done|done|done|done|done| | |done].
  - pose proof (wf_nodup _ _ _ Hwf) as Hnd. unfold footprint in Hnd. simpl in Hnd.
    apply NoDup_cons in Hnd as [Hnin _]. intros ->. apply Hnin. by left.
  - eapply contents_entries; [done|]. constructor.
  - by apply (shard_wf_emptied h' _ (Layout hd tl [])).
Qed.

(** ** Where keys live *)

Lemma drop_key_keys k a : (drop_key k a).*1 = filter (λ k', k' ≠ k) a.*1.
Proof.
  unfold drop_key. induction a as [|e a IH]; [done|].
  destruct (decide (e.1 = k)) as [He|He].
  - rewrite filter_cons_False by (by intros []). rewrite fmap_cons.
    by rewrite filter_cons_False by (by intros []).
  - rewrite filter_cons_True by done. rewrite !fmap_cons.
    rewrite filter_cons_True by done. by rewrite IH.
Qed.

Lemma ref_put_keys c j k v a :
  shardIndex c k = j →
  NoDup a.*1 ∧ Forall (λ k', shardIndex c k' = j) a.*1 →
  NoDup (ref_put k v a).*1 ∧ Forall (λ k', shardIndex c k' = j) (ref_put k v a).*1.
Proof.
  intros Hk [Hnd Hall]. unfold ref_put. rewrite fmap_cons, drop_key_keys.
  simpl. split.
  - apply NoDup_cons. split; [|by apply NoDup_filter].
    intros [Hne _]%list_elem_of_filter. done.
  - constructor; [done|]. apply Forall_forall.
    intros k' [_ Hk']%list_elem_of_filter. rewrite Forall_forall in Hall. auto.
Qed.

Lemma ref_step_keys c j a o :
  NoDup a.*1 ∧ Forall (λ k', shardIndex c k' = j) a.*1 →
  NoDup (ref_step c j a o).*1 ∧
  Forall (λ k', shardIndex c k' = j) (ref_step c j a o).*1.
Proof.
  intros Ha. destruct o as [k|k v|]; simpl.
  - case_decide as Hk; [|done]. unfold ref_get.
    destruct (assoc k a) as [v|]; [|done]. by apply (ref_put_keys c j k v a).
  - case_decide as Hk; [|done]. by apply ref_put_keys.
  - split; constructor.
Qed.

Lemma ref_run_keys c j os : ∀ a,
  NoDup a.*1 ∧ Forall (λ k', shardIndex c k' = j) a.*1 →
  NoDup (fold_left (ref_step c j) os a).*1 ∧
  Forall (λ k', shardIndex c k' = j) (fold_left (ref_step c j) os a).*1.
Proof.
  induction os as [|o os IH]; intros a Ha; [done|].
  simpl. by apply IH, ref_step_keys.
Qed.

(** X13: in the state reached from construction by any sequence of calls,
    the keys of each shard's recency list are pairwise distinct and every
    one of them is routed to that shard by [getShard]: a key is stored at
    most once in the whole cache, in the shard where [Get] looks for it. *)
Theorem keys_routed_and_unique numCPU capacity h0 os :
  ∃ c0 h1 c h,
    NewLRUCache numCPU capacity h0 = Some (c0, h1) ∧
    run c0 os h1 = Some (c, h) ∧
    ∀ j s, shards c !! j = Some s →
      ∃ a, contents h s = Some a ∧ NoDup a.*1 ∧
           Forall (λ k, shardIndex c k = j) a.*1.
Proof.
  destruct (NewLRUCache_holds numCPU capacity h0) as (c0 & h1 & Hnew & Hholds0).
  destruct (run_holds os h1 c0 _ Hholds0) as (c & h & Hrun & Hholds & Hm & _).
  exists c0, h1, c, h. split_and!; [done|done|].
  intros j s Hs. eexists. split; [by apply (holds_contents _ _ _ _ _ Hholds Hs)|].
  destruct (ref_run_keys c0 j os []) as [Hnd Hall]; [split; constructor|].
  split; [done|]. eapply Forall_impl; [exact Hall|].
  intros k Hk. simpl in Hk. by rewrite (shardIndex_mask _ _ _ Hm).
Qed.

(** ** Instances on the state after the first calls of [main] *)



Lemma Put_then_Get_witness :
  cache_inv demo_state.2 demo_state.1 ∧
  ∃ c' h' h'',
    Put demo_state.1 "number" (AnyInt 42) demo_state.2 = Some (c', h') ∧
    Get c' "number" h' = Some ((AnyInt 42, true), h'').
Proof.
  split; [apply state_after_inv|].
  apply Put_then_Get, state_after_inv.
Defined.

Lemma other_calls_preserve_lookup_witness :
  cache_inv demo_state.2 demo_state.1 ∧
  CallPut "user:2" (AnyInt 5) ≠ CallClear ∧
  "user:1"%string ∉ put_keys [CallPut "user:2" (AnyInt 5)] ∧
  ∃ r h1 c' h' h2,
    Get demo_state.1 "user:1" demo_state.2 = Some (r, h1) ∧
    step demo_state.1 (CallPut "user:2" (AnyInt 5)) demo_state.2 = Some (c', h') ∧
    Get c' "user:1" h' = Some (r, h2).
Proof.
  assert (Hput : "user:1"%string ∉ put_keys [CallPut "user:2" (AnyInt 5)]).
  { apply (bool_decide_unpack
             ("user:1"%string ∉ put_keys [CallPut "user:2" (AnyInt 5)])).
    vm_compute. exact I. }
  split_and!; [apply state_after_inv|discriminate|exact Hput|].
  apply other_calls_preserve_lookup; [apply state_after_inv|discriminate|exact Hput].
Defined.

Lemma Size_counts_entries_witness :
  cache_inv demo_state.2 demo_state.1 ∧
  Z.of_nat (entryCount demo_state.2 demo_state.1) ≤ max_int ∧
  Size demo_state.1 = Z.of_nat (entryCount demo_state.2 demo_state.1).
Proof.
  assert (Hcount : entryCount demo_state.2 demo_state.1 = 3%nat)
    by (vm_compute; reflexivity).
  assert (Hb : Z.of_nat (entryCount demo_state.2 demo_state.1) ≤ max_int)
    by (rewrite Hcount; unfold max_int; lia).
  split_and!; [apply state_after_inv|exact Hb|].
  apply Size_counts_entries; [apply state_after_inv|exact Hb].
Defined.

Lemma evictLRU_removes_last_witness :
  cache_inv demo_state.2 demo_state.1 ∧
  shards demo_state.1 !! 715%nat = Some demo_shard ∧
  ∃ a s' h',
    contents demo_state.2 demo_shard = Some a ∧
    evictLRU demo_shard demo_state.2 = Some (s', h') ∧
    cache_inv h' (with_shard 715 s' demo_state.1) ∧
    contents h' s' = Some (removelast a) ∧
    (∀ k, is_Some (Shard.cache s' !! k) ↔ k ∈ (removelast a).*1) ∧
    Shard.size s' = wrap_int (Z.of_nat (length (removelast a))) ∧
    Shard.capacity s' = Shard.capacity demo_shard ∧
    (a = [] → s' = demo_shard ∧ h' = demo_state.2) ∧
    ∀ j sj, j ≠ 715%nat → shards demo_state.1 !! j = Some sj →
            contents h' sj = contents demo_state.2 sj.
Proof.
  assert (Hs : shards demo_state.1 !! 715%nat = Some demo_shard)
    by (vm_compute; reflexivity).
  split_and!; [apply state_after_inv|exact Hs|].
  apply evictLRU_removes_last; [apply state_after_inv|exact Hs].
Defined.

Lemma Clear_idempotent_witness :
  cache_inv demo_state.2 demo_state.1 ∧
  ∃ c1 h1,
    Clear demo_state.1 demo_state.2 = Some (c1, h1) ∧
    Clear c1 h1 = Some (c1, h1).
Proof.
  split; [apply state_after_inv|].
  apply Clear_idempotent, state_after_inv.
Defined.
